(** * go-semantic-chunking: sentence segmentation, DP chunking and the /embed handler

    A shallow embedding of [sentence_parser.go] and [main.go], with the
    token-budget invariants of the segmenter, the termination of the
    word-splitting pass and the request/document error paths.

    Conventions.
    - A Go [string] is a byte sequence: [String.string].
    - A Go [int] is a [Z]; [len] of a slice is [Z.of_nat (length _)].
    - A Go [float32] is modelled by the rational it denotes (no arithmetic on
      floats is performed by the code embedded here).
    - A Go [(T, error)] result is a [result T]; an [error] is its message.
    - Loops whose termination is not structural take fuel and return [None]
      when it runs out. *)

From Stdlib Require Import List ZArith QArith Bool Lia Arith.
From Stdlib Require Import Strings.String Strings.Ascii.
Import ListNotations.

Local Close Scope Q_scope.
Local Open Scope nat_scope.
Local Open Scope list_scope.
Local Open Scope string_scope.

(** ** Results and errors *)

Inductive result (A : Type) : Type :=
| Ok (a : A)
| Err (msg : string).
Arguments Ok {A} a.
Arguments Err {A} msg.

Definition float32 : Type := Q.

(** Go's [len] on strings and slices. *)
Definition slen (s : string) : Z := Z.of_nat (String.length s).
Definition len {A : Type} (l : list A) : Z := Z.of_nat (List.length l).

(** ** The [strings] package functions used by the segmenter *)

Module GoStrings.

Definition bytes (l : list nat) : string :=
  string_of_list_ascii (map ascii_of_nat l).

(** UTF-8 encodings of the runes for which [unicode.IsSpace] holds:
    tab, LF, VT, FF, CR, space, U+0085, U+00A0, U+1680, U+2000..U+200A,
    U+2028, U+2029, U+202F, U+205F, U+3000. *)
Definition whiteSpace : list string :=
  map bytes
    [ [9]; [10]; [11]; [12]; [13]; [32];
      [194; 133]; [194; 160];
      [225; 154; 128];
      [226; 128; 128]; [226; 128; 129]; [226; 128; 130]; [226; 128; 131];
      [226; 128; 132]; [226; 128; 133]; [226; 128; 134]; [226; 128; 135];
      [226; 128; 136]; [226; 128; 137]; [226; 128; 138];
      [226; 128; 168]; [226; 128; 169]; [226; 128; 175];
      [226; 129; 159];
      [227; 128; 128] ].

Fixpoint revString (s : string) : string :=
  match s with
  | EmptyString => EmptyString
  | String c s' => revString s' ++ String c EmptyString
  end.

(** [strings.HasPrefix]. *)
Fixpoint HasPrefix (s prefix : string) {struct prefix} : bool :=
  match prefix with
  | EmptyString => true
  | String a prefix' =>
      match s with
      | EmptyString => false
      | String b s' => Ascii.eqb a b && HasPrefix s' prefix'
      end
  end.

(** Width in bytes of the white-space rune at the head of [s] among the
    encodings [ws]; [0] when [s] does not start with one. *)
Definition spaceWidthIn (ws : list string) (s : string) : nat :=
  match find (fun w => HasPrefix s w) ws with
  | Some w => String.length w
  | None => 0
  end.

Definition spaceWidth : string -> nat := spaceWidthIn whiteSpace.
Definition spaceWidthBack : string -> nat :=
  spaceWidthIn (map revString whiteSpace).

Definition emit (cur : string) (rest : list string) : list string :=
  match cur with
  | EmptyString => rest
  | _ => cur :: rest
  end.

(** [strings.Fields]: [skip] counts the remaining bytes of the white-space
    rune being skipped, [cur] is the field being read. *)
Fixpoint fieldsFrom (s : string) (skip : nat) (cur : string) : list string :=
  match s with
  | EmptyString => emit cur []
  | String c s' =>
      match skip with
      | S k => fieldsFrom s' k cur
      | O =>
          match spaceWidth s with
          | O => fieldsFrom s' 0 (cur ++ String c EmptyString)
          | S k => emit cur (fieldsFrom s' k EmptyString)
          end
      end
  end.

Definition Fields (s : string) : list string := fieldsFrom s 0 EmptyString.

(** Drops the leading white-space runes, as recognised by [width]. *)
Fixpoint dropSpaces (width : string -> nat) (s : string) (skip : nat) : string :=
  match s with
  | EmptyString => EmptyString
  | String c s' =>
      match skip with
      | S k => dropSpaces width s' k
      | O =>
          match width s with
          | O => s
          | S k => dropSpaces width s' k
          end
      end
  end.

(** [strings.TrimSpace]: leading, then trailing white space removed. *)
Definition TrimSpace (s : string) : string :=
  revString (dropSpaces spaceWidthBack (revString (dropSpaces spaceWidth s 0)) 0).

(** [strings.HasSuffix]. *)
Definition HasSuffix (s suffix : string) : bool :=
  (String.length suffix <=? String.length s)%nat
  && (substring (String.length s - String.length suffix)
                (String.length suffix) s =? suffix)%string.

End GoStrings.

(** ** Data model (types.go, config.go) *)

Module Frame.
Record t : Type := mk
  { Text : string;
    StartTime : string;
    EndTime : string }.
End Frame.

Module Sentence.
Record t : Type := mk
  { Text : string;
    StartTime : string;
    Embedding : list float32;
    TokenCount : Z }.
End Sentence.

Module Chunk.
Record t : Type := mk
  { Text : string;
    StartTime : string;
    Embedding : list float32;
    NumSentences : Z;
    TokenCount : Z;
    ChunkIndex : Z;
    SentenceEmbeddings : list (list float32) }.
End Chunk.

Record ChunkingConfig : Type := mkChunkingConfig
  { OptimalSize : Z;
    MaxSize : Z;
    LambdaSize : float32;
    ChunkPenalty : float32 }.

(** [DefaultChunkingConfig] *)
Definition DefaultChunkingConfig : ChunkingConfig :=
  {| OptimalSize := 470%Z;
     MaxSize := 512%Z;
     LambdaSize := 2%Q;
     ChunkPenalty := 1%Q |}.

(** ** The tokenizer capability *)

Record Encoding : Type := mkEncoding { GetIds : list Z }.

Record Tokenizer : Type := mkTokenizer
  { EncodeSingle : string -> result Encoding }.

(** [CountTokens] *)
Definition CountTokens (tok : Tokenizer) (text : string) : Z :=
  match EncodeSingle tok text with
  | Err _ => 0%Z
  | Ok encoding => len (GetIds encoding)
  end.

(** ** Sentence segmentation (sentence_parser.go) *)

Section Segmenter.

Variable tok : Tokenizer.

Definition endsSentence (text : string) : bool :=
  let trimmed := GoStrings.TrimSpace text in
  GoStrings.HasSuffix trimmed "." || GoStrings.HasSuffix trimmed "!"
  || GoStrings.HasSuffix trimmed "?".

Definition newSentence (text startTime : string) : Sentence.t :=
  {| Sentence.Text := text;
     Sentence.StartTime := startTime;
     Sentence.Embedding := [];
     Sentence.TokenCount := CountTokens tok text |}.

(** Writing [piece] into a [strings.Builder] holding [buf], preceded by a
    single space when the builder is not empty. *)
Definition writeSep (buf piece : string) : string :=
  (if (0 <? slen buf)%Z then buf ++ " " else buf) ++ piece.

(** State of the frame loop of [ExtractSentencesFromFrames]. *)
Record frameState : Type := mkFrameState
  { sentences : list Sentence.t;
    currentSentenceText : string;
    currentStartTime : string;
    isFirstFrame : bool }.

Definition frameInit : frameState :=
  {| sentences := [];
     currentSentenceText := "";
     currentStartTime := "";
     isFirstFrame := true |}.

(** One iteration of [for _, frame := range frames]. *)
Definition frameStep (st : frameState) (frame : Frame.t) : frameState :=
  let startTime :=
    if isFirstFrame st then Frame.StartTime frame else currentStartTime st in
  let buf := writeSep (currentSentenceText st) (Frame.Text frame) in
  if endsSentence (Frame.Text frame) then
    {| sentences := (sentences st ++ [newSentence buf startTime])%list;
       currentSentenceText := "";
       currentStartTime := startTime;
       isFirstFrame := true |}
  else
    {| sentences := sentences st;
       currentSentenceText := buf;
       currentStartTime := startTime;
       isFirstFrame := false |}.

(** "Add any remaining text as a sentence". *)
Definition flushRemaining (st : frameState) : list Sentence.t :=
  if (0 <? slen (currentSentenceText st))%Z then
    (sentences st
       ++ [newSentence (currentSentenceText st) (currentStartTime st)])%list
  else sentences st.

(** The sentences before the oversize post-processing. *)
Definition provisionalFromFrames (frames : list Frame.t) : list Sentence.t :=
  flushRemaining (fold_left frameStep frames frameInit).

(** Inner loop [for wordCount < len(words)]: [rest] is [words[wordCount:]].
    Returns the chunk text and the final [wordCount]. *)
Fixpoint addWords (maxTokens : Z) (rest : list string)
         (currentChunk : string) (wordCount : nat) : string * nat :=
  match rest with
  | [] => (currentChunk, wordCount)
  | w :: rest' =>
      let testText := currentChunk ++ " " ++ w in
      let tokens := CountTokens tok testText in
      if (maxTokens <? tokens)%Z then (currentChunk, wordCount)
      else addWords maxTokens rest' (currentChunk ++ " " ++ w) (S wordCount)
  end.

(** Outer loop [for len(words) > 0]; [None] when the fuel runs out. *)
Fixpoint splitWords (fuel : nat) (maxTokens : Z) (startTime : string)
         (words : list string) : option (list Sentence.t) :=
  match words with
  | [] => Some []
  | w0 :: rest =>
      match fuel with
      | O => None
      | S fuel' =>
          let '(chunkText, wordCount) := addWords maxTokens rest w0 1 in
          match splitWords fuel' maxTokens startTime (skipn wordCount words) with
          | None => None
          | Some subs => Some (newSentence chunkText startTime :: subs)
          end
      end
  end.

(** The body of [for _, sent := range sentences] of the post-processing;
    the result is what the iteration appends to [finalSentences]. *)
Definition splitSentence (maxTokens : Z) (sent : Sentence.t)
  : option (list Sentence.t) :=
  if (Sentence.TokenCount sent <=? maxTokens)%Z then Some [sent]
  else
    let words := GoStrings.Fields (Sentence.Text sent) in
    if (len words =? 0)%Z then Some [sent]
    else splitWords (List.length words) maxTokens (Sentence.StartTime sent) words.

Fixpoint splitOversized (maxTokens : Z) (sents : list Sentence.t)
  : option (list Sentence.t) :=
  match sents with
  | [] => Some []
  | sent :: sents' =>
      match splitSentence maxTokens sent with
      | None => None
      | Some out =>
          match splitOversized maxTokens sents' with
          | None => None
          | Some outs => Some (out ++ outs)%list
          end
      end
  end.

(** [ExtractSentencesFromFrames]: the ceiling is the constant [512]. *)
Definition ExtractSentencesFromFrames (frames : list Frame.t)
  : option (list Sentence.t) :=
  if (len frames =? 0)%Z then Some []
  else
    let maxTokens := 512%Z in
    splitOversized maxTokens (provisionalFromFrames frames).

(** State of the word loop of [ExtractSentencesFromText]. *)
Definition wordStep (st : list Sentence.t * string) (word : string)
  : list Sentence.t * string :=
  let '(sents, currentSentence) := st in
  let buf := writeSep currentSentence word in
  if endsSentence word then ((sents ++ [newSentence buf ""])%list, "")
  else (sents, buf).

Definition provisionalFromText (text : string) : list Sentence.t :=
  let '(sents, currentSentence) :=
    fold_left wordStep (GoStrings.Fields text) ([], "") in
  if (0 <? slen currentSentence)%Z then (sents ++ [newSentence currentSentence ""])%list
  else sents.

(** [ExtractSentencesFromText]: the ceiling is the parameter [maxSize]. *)
Definition ExtractSentencesFromText (text : string) (maxSize : Z)
  : option (list Sentence.t) :=
  if (text =? "")%string then Some []
  else splitOversized maxSize (provisionalFromText text).

End Segmenter.

(** ** DP chunker *)

Section DPChunker.

(** Cosine similarity of two embeddings, as computed on the model's
    vectors; the chunker only compares and adds the values. *)
Variable cosine : list float32 -> list float32 -> Q.

Variable c : ChunkingConfig.

(** Modelled from the spec: the adjacent similarities of the chunker
    ([ExtractChunksFromSentences], called by [processText]; its file is
    missing), section 4.3.1: [raw_sim[i] = cosine(s_i, s_{i+1})]. *)
Fixpoint raw_sim (sents : list Sentence.t) : list Q :=
  match sents with
  | s0 :: ((s1 :: _) as rest) =>
      cosine (Sentence.Embedding s0) (Sentence.Embedding s1) :: raw_sim rest
  | _ => []
  end.

(** Modelled from the spec: [lo = min(raw_sim)] of the missing chunker. *)
Definition min_sim (l : list Q) : Q :=
  match l with
  | [] => 0%Q
  | x :: l' => fold_left (fun a b => if Qle_bool a b then a else b) l' x
  end.

(** Modelled from the spec: [hi = max(raw_sim)] of the missing chunker. *)
Definition max_sim (l : list Q) : Q :=
  match l with
  | [] => 0%Q
  | x :: l' => fold_left (fun a b => if Qle_bool a b then b else a) l' x
  end.

(** Modelled from the spec: min-max normalization of the missing chunker,
    section 4.3.1; all zero when [hi > lo] fails. *)
Definition normalize (raw : list Q) : list Q :=
  let lo := min_sim raw in
  let hi := max_sim raw in
  if Qle_bool hi lo then map (fun _ => 0%Q) raw
  else map (fun x => ((x - lo) / (hi - lo))%Q) raw.

(** Modelled from the spec: running sums of the missing chunker, section
    4.3.2, starting from [acc]. *)
Fixpoint prefixQ (acc : Q) (l : list Q) : list Q :=
  acc :: match l with
         | [] => []
         | x :: l' => prefixQ (acc + x)%Q l'
         end.

(** Modelled from the spec: running sums of the missing chunker, section
    4.3.2, starting from [acc]. *)
Fixpoint prefixZ (acc : Z) (l : list Z) : list Z :=
  acc :: match l with
         | [] => []
         | x :: l' => prefixZ (acc + x)%Z l'
         end.

(** Modelled from the spec: [prefix_sim] of the missing chunker, of length
    [n]. *)
Definition prefix_sim (sents : list Sentence.t) : list Q :=
  prefixQ 0%Q (normalize (raw_sim sents)).

(** Modelled from the spec: [prefix_tok] of the missing chunker, of length
    [n + 1]. *)
Definition prefix_tok (sents : list Sentence.t) : list Z :=
  prefixZ 0%Z (map Sentence.TokenCount sents).

Section Tables.

Variable sents : list Sentence.t.

(** Modelled from the spec: [segment_tokens(i, j)] of the missing chunker. *)
Definition segment_tokens (i j : nat) : Z :=
  (nth j (prefix_tok sents) 0 - nth i (prefix_tok sents) 0)%Z.

(** Modelled from the spec: [segment_reward(i, j)] of the missing chunker. *)
Definition segment_reward (i j : nat) : Q :=
  (nth (j - 1) (prefix_sim sents) 0 - nth i (prefix_sim sents) 0)%Q.

(** Modelled from the spec: the size penalty of the missing chunker, section
    4.3.3; [None] marks an illegal segment. *)
Definition size_penalty (t : Z) : option Q :=
  if (MaxSize c <? t)%Z then None
  else if (t <=? OptimalSize c)%Z then Some 0%Q
  else Some (LambdaSize c * inject_Z (t - OptimalSize c)
             / inject_Z (MaxSize c - OptimalSize c))%Q.

(** Modelled from the spec: the score of the missing chunker for cutting the
    first [j] sentences at [i], section 4.3.4. *)
Definition candidate (dp : list Q) (i j : nat) : option Q :=
  match size_penalty (segment_tokens i j) with
  | None => None
  | Some p =>
      Some (nth i dp 0 + segment_reward i j - p - ChunkPenalty c)%Q
  end.

(** Modelled from the spec: the maximum of the missing chunker over the legal
    [i] of [cands], visited in order; a later [i] replaces the best one only
    when strictly better (ties go to the smaller [i]). *)
Fixpoint best_start (dp : list Q) (j : nat) (cands : list nat)
         (best : option (nat * Q)) : option (nat * Q) :=
  match cands with
  | [] => best
  | i :: cands' =>
      match candidate dp i j with
      | None => best_start dp j cands' best
      | Some s =>
          match best with
          | None => best_start dp j cands' (Some (i, s))
          | Some (_, b) =>
              if Qle_bool s b then best_start dp j cands' best
              else best_start dp j cands' (Some (i, s))
          end
      end
  end.

(** Modelled from the spec: the DP of the missing chunker, section 4.3.4,
    filling [dp] and [start] for the positions [js]; a position without a
    legal predecessor is an error (section 7). *)
Fixpoint dp_fill (js : list nat) (dp : list Q) (start : list nat)
  : result (list Q * list nat) :=
  match js with
  | [] => Ok (dp, start)
  | j :: js' =>
      match best_start dp j (seq 0 j) None with
      | None => Err "no legal predecessor"
      | Some (i, s) => dp_fill js' (dp ++ [s])%list (start ++ [i])%list
      end
  end.

(** Modelled from the spec: the reconstruction of the missing chunker,
    section 4.3.5, backtracking from [j]; the segments are collected in
    emission order. [None] when the fuel runs out. *)
Fixpoint backtrack (fuel : nat) (start : list nat) (j : nat)
  : option (list (nat * nat)) :=
  match j with
  | O => Some []
  | S _ =>
      match fuel with
      | O => None
      | S fuel' =>
          let i := nth j start 0 in
          match backtrack fuel' start i with
          | None => None
          | Some segs => Some ((i, j) :: segs)
          end
      end
  end.

(** Modelled from the spec: the sentences of the segment [[i, j)]. *)
Definition slice (i j : nat) : list Sentence.t :=
  firstn (j - i) (skipn i sents).

(** Modelled from the spec: the sentence lists of the chunks of the missing
    chunker, in input order (the emitted list reversed). *)
Definition chunkGroups : option (result (list (list Sentence.t))) :=
  let n := List.length sents in
  match dp_fill (seq 1 n) [0%Q] [0] with
  | Err e => Some (Err e)
  | Ok (_, start) =>
      match backtrack n start n with
      | None => None
      | Some segs =>
          Some (Ok (map (fun '(i, j) => slice i j) (rev segs)))
      end
  end.

End Tables.

(** Modelled from the spec: the token count of a chunk of the missing
    chunker, the sum of its sentences' counts. *)
Definition sumTokens (group : list Sentence.t) : Z :=
  fold_right Z.add 0%Z (map Sentence.TokenCount group).

(** Modelled from the spec: the Chunk entity of section 3 built by the
    missing chunker from its sentences. *)
Definition buildChunk (index : nat) (group : list Sentence.t) : Chunk.t :=
  {| Chunk.Text := String.concat " " (map Sentence.Text group);
     Chunk.StartTime :=
       match group with
       | [] => ""
       | s0 :: _ => Sentence.StartTime s0
       end;
     Chunk.Embedding := [];
     Chunk.NumSentences := len group;
     Chunk.TokenCount := sumTokens group;
     Chunk.ChunkIndex := Z.of_nat index;
     Chunk.SentenceEmbeddings := map Sentence.Embedding group |}.

(** Modelled from the spec: [chunk_index] assigned by position. *)
Fixpoint buildChunks (index : nat) (groups : list (list Sentence.t))
  : list Chunk.t :=
  match groups with
  | [] => []
  | g :: groups' => buildChunk index g :: buildChunks (S index) groups'
  end.

(** Modelled from the spec: [ExtractChunksFromSentences], the DP chunker
    called by [processText], whose file is missing; section 4.3. An empty
    input gives an empty chunk list. *)
Definition ExtractChunksFromSentences (sents : list Sentence.t)
  : option (result (list Chunk.t)) :=
  match sents with
  | [] => Some (Ok [])
  | _ =>
      match chunkGroups sents with
      | None => None
      | Some (Err e) => Some (Err e)
      | Some (Ok groups) => Some (Ok (buildChunks 0 groups))
      end
  end.

End DPChunker.

(** ** The HTTP handler (main.go) *)

(** The embedding model: its tokenizer and the two embedding passes, which
    fill in the [Embedding] fields or fail. *)
Record EmbeddingModel : Type := mkEmbeddingModel
  { Tokenizer_ : Tokenizer;
    EmbedSentences : list Sentence.t -> result (list Sentence.t);
    EmbedChunks : list Chunk.t -> result (list Chunk.t) }.

Record EmbedRequest : Type := mkEmbedRequest
  { ID : string;
    Text : string;
    ChunkingConfig_ : option ChunkingConfig }.

Record BatchEmbedRequest : Type := mkBatchEmbedRequest
  { Documents : list EmbedRequest }.

Record ChunkResponse : Type := mkChunkResponse
  { crText : string;
    crStartTime : string;
    crEmbedding : list float32;
    crNumSentences : Z;
    crTokenCount : Z;
    crChunkIndex : Z }.

Record DocumentResponse : Type := mkDocumentResponse
  { drID : string;
    drChunks : list ChunkResponse;
    drError : string }.

Record BatchEmbedResponse : Type := mkBatchEmbedResponse
  { brDocuments : list DocumentResponse }.

(** What [handleEmbed] writes to the [http.ResponseWriter]. *)
Inductive HTTPResponse : Type :=
| HttpError (status : Z) (message : string)
| HttpJSON (body : BatchEmbedResponse).

Definition StatusBadRequest : Z := 400.
Definition StatusMethodNotAllowed : Z := 405.
Definition MethodPost : string := "POST".

Record Request : Type := mkRequest
  { Method : string;
    Body : string }.

Section Server.

Variable cosine : list float32 -> list float32 -> Q.

(** [json.NewDecoder(r.Body).Decode(&batchReq)] *)
Variable jsonDecode : string -> result BatchEmbedRequest.

(** [processText] *)
Definition processText (embeddingModel : EmbeddingModel) (text : string)
           (chunkingConfig : ChunkingConfig) : option (result (list Chunk.t)) :=
  let frames :=
    [ {| Frame.Text := text; Frame.StartTime := ""; Frame.EndTime := "" |} ] in
  match ExtractSentencesFromFrames (Tokenizer_ embeddingModel) frames with
  | None => None
  | Some sentences =>
      if (len sentences =? 0)%Z then Some (Ok [])
      else
        match EmbedSentences embeddingModel sentences with
        | Err e => Some (Err ("failed to embed sentences: " ++ e))
        | Ok sentences =>
            match ExtractChunksFromSentences cosine chunkingConfig sentences with
            | None => None
            | Some (Err e) => Some (Err ("failed to extract chunks: " ++ e))
            | Some (Ok chunks) =>
                match EmbedChunks embeddingModel chunks with
                | Err e => Some (Err ("failed to embed chunks: " ++ e))
                | Ok chunks => Some (Ok chunks)
                end
            end
        end
  end.

Definition toChunkResponse (chunk : Chunk.t) : ChunkResponse :=
  {| crText := Chunk.Text chunk;
     crStartTime := Chunk.StartTime chunk;
     crEmbedding := Chunk.Embedding chunk;
     crNumSentences := Chunk.NumSentences chunk;
     crTokenCount := Chunk.TokenCount chunk;
     crChunkIndex := Chunk.ChunkIndex chunk |}.

(** The response of a document whose text was processed with outcome [r]. *)
Definition documentResponse (id : string) (r : result (list Chunk.t))
  : DocumentResponse :=
  match r with
  | Err e =>
      {| drID := id; drChunks := []; drError := "Processing failed: " ++ e |}
  | Ok chunks =>
      {| drID := id; drChunks := map toChunkResponse chunks; drError := "" |}
  end.

(** [processDocument] *)
Definition processDocument (embeddingModel : EmbeddingModel)
           (doc : EmbedRequest) : option DocumentResponse :=
  if (Text doc =? "")%string then
    Some {| drID := ID doc; drChunks := [];
            drError := "Text field is required" |}
  else
    let chunkingConfig :=
      match ChunkingConfig_ doc with
      | Some cfg => cfg
      | None => DefaultChunkingConfig
      end in
    match processText embeddingModel (Text doc) chunkingConfig with
    | None => None
    | Some r => Some (documentResponse (ID doc) r)
    end.

(** The document loop of [handleEmbed]: the responses in request order,
    and the documents handed to [processDocument], in call order. *)
Fixpoint processDocuments (embeddingModel : EmbeddingModel)
         (docs : list EmbedRequest)
  : option (list DocumentResponse * list EmbedRequest) :=
  match docs with
  | [] => Some ([], [])
  | doc :: docs' =>
      match processDocument embeddingModel doc with
      | None => None
      | Some docResp =>
          match processDocuments embeddingModel docs' with
          | None => None
          | Some (resps, processed) => Some (docResp :: resps, doc :: processed)
          end
      end
  end.

(** [handleEmbed]: the response written, and the processed documents. *)
Definition handleEmbed (r : Request) (embeddingModel : EmbeddingModel)
  : option (HTTPResponse * list EmbedRequest) :=
  if negb (Method r =? MethodPost)%string then
    Some (HttpError StatusMethodNotAllowed "Method not allowed", [])
  else
    match jsonDecode (Body r) with
    | Err e =>
        Some (HttpError StatusBadRequest ("Invalid request: " ++ e), [])
    | Ok batchReq =>
        if (len (Documents batchReq) =? 0)%Z then
          Some (HttpError StatusBadRequest "At least one document is required", [])
        else
          match processDocuments embeddingModel (Documents batchReq) with
          | None => None
          | Some (resps, processed) =>
              Some (HttpJSON {| brDocuments := resps |}, processed)
          end
    end.

End Server.

(** ** Digit-only strings (sentence_parser.go) *)

(** An ASCII digit, ['0'] to ['9']. *)
Definition isDigit (c : ascii) : bool :=
  (48 <=? nat_of_ascii c)%nat && (nat_of_ascii c <=? 57)%nat.

(** The loop of [isDigitOnly]: [false] at the first rune below ['0'] or above
    ['9']. A rune that is not ASCII, like the byte that starts it, is above
    ['9'], so the test is made byte by byte. *)
Fixpoint digitsOnly (s : string) : bool :=
  match s with
  | EmptyString => true
  | String r s' =>
      if (nat_of_ascii r <? 48)%nat || (57 <? nat_of_ascii r)%nat then false
      else digitsOnly s'
  end.

(** [isDigitOnly] *)
Definition isDigitOnly (s : string) : bool :=
  if digitsOnly s then (0 <? slen s)%Z else false.

(** ** Configuration (config.go) *)

Definition minInt64 : Z := (- 2 ^ 63)%Z.
Definition maxInt64 : Z := (2 ^ 63 - 1)%Z.

(** Arithmetic on [int64] wraps around. *)
Definition wrapInt64 (z : Z) : Z := ((z + 2 ^ 63) mod 2 ^ 64 - 2 ^ 63)%Z.

(** The value of a run of decimal digits; [None] at a byte that is no
    digit. *)
Fixpoint parseDigits (s : string) (acc : Z) : option Z :=
  match s with
  | EmptyString => Some acc
  | String c s' =>
      if isDigit c then
        parseDigits s' (acc * 10 + Z.of_nat (nat_of_ascii c - 48))%Z
      else None
  end.

(** [strconv.Atoi]: an optional sign, then at least one decimal digit, the
    value within [int64]. *)
Definition Atoi (s : string) : result Z :=
  match s with
  | EmptyString => Err "invalid syntax"
  | String c s' =>
      let neg := Ascii.eqb c "-" in
      let digits := if Ascii.eqb c "-" || Ascii.eqb c "+" then s' else s in
      match digits with
      | EmptyString => Err "invalid syntax"
      | _ =>
          match parseDigits digits 0 with
          | None => Err "invalid syntax"
          | Some n =>
              let v := if neg then (- n)%Z else n in
              if (minInt64 <=? v)%Z && (v <=? maxInt64)%Z then Ok v
              else Err "value out of range"
          end
      end
  end.

(** [time.Second], in nanoseconds; a [time.Duration] is an [int64]. *)
Definition Second : Z := 1000000000.

Record ServerConfig : Type := mkServerConfig
  { Port : string;
    ReadTimeout : Z;
    WriteTimeout : Z }.

Record EmbeddingConfig : Type := mkEmbeddingConfig
  { MaxBatchTokens : Z }.

(** [LoadServerConfig]; [Getenv] is [os.Getenv], the empty string for a
    variable that is not set. *)
Definition LoadServerConfig (Getenv : string -> string) : ServerConfig :=
  let port := "8080" in
  let readTimeout := wrapInt64 (120 * Second) in
  let writeTimeout := wrapInt64 (120 * Second) in
  let port :=
    let envVal := Getenv "PORT" in
    if negb (envVal =? "")%string then envVal else port in
  let readTimeout :=
    let envVal := Getenv "READ_TIMEOUT_SECONDS" in
    if negb (envVal =? "")%string then
      match Atoi envVal with
      | Ok val => if (0 <? val)%Z then wrapInt64 (val * Second) else readTimeout
      | Err _ => readTimeout
      end
    else readTimeout in
  let writeTimeout :=
    let envVal := Getenv "WRITE_TIMEOUT_SECONDS" in
    if negb (envVal =? "")%string then
      match Atoi envVal with
      | Ok val => if (0 <? val)%Z then wrapInt64 (val * Second) else writeTimeout
      | Err _ => writeTimeout
      end
    else writeTimeout in
  {| Port := port; ReadTimeout := readTimeout; WriteTimeout := writeTimeout |}.

(** [LoadEmbeddingConfig] *)
Definition LoadEmbeddingConfig (Getenv : string -> string) : EmbeddingConfig :=
  let maxBatchTokens := 6000%Z in
  let maxBatchTokens :=
    let envVal := Getenv "MAX_BATCH_TOKENS" in
    if negb (envVal =? "")%string then
      match Atoi envVal with
      | Ok val => if (0 <? val)%Z then val else maxBatchTokens
      | Err _ => maxBatchTokens
      end
    else maxBatchTokens in
  {| MaxBatchTokens := maxBatchTokens |}.

(** [DefaultEmbeddingConfig] *)
Definition DefaultEmbeddingConfig : EmbeddingConfig :=
  {| MaxBatchTokens := 6000 |}.

(** ** Vocabulary of the statements *)

(** The text built by [k] successful rounds of the inner loop. *)
Definition joinOnto (cur : string) (l : list string) : string :=
  fold_left (fun acc w => acc ++ " " ++ w) l cur.

(** What holds of every sub-sentence cut from [words]: it carries the
    parent's start time, its count is the tokenizer's count of its text, and
    it fits the ceiling unless it is a single word of the parent. *)
Definition subSentenceOf (tok : Tokenizer) (maxTokens : Z)
           (startTime : string) (words : list string) (s : Sentence.t) : Prop :=
  Sentence.StartTime s = startTime
  /\ Sentence.TokenCount s = CountTokens tok (Sentence.Text s)
  /\ ((Sentence.TokenCount s <= maxTokens)%Z \/ In (Sentence.Text s) words).

(** A tokenizer that never counts more for two texts joined by a space than
    for the two texts apart. *)
Definition subadditive (tok : Tokenizer) : Prop :=
  forall a b : string,
    (CountTokens tok (a ++ " " ++ b) <= CountTokens tok a + CountTokens tok b)%Z.

Definition sumZ (l : list Z) : Z := fold_right Z.add 0%Z l.

(** Texts made of white-space runes only. *)
Inductive WhiteSpaceOnly : string -> Prop :=
| wso_nil : WhiteSpaceOnly ""
| wso_cons (w s : string) :
    In w GoStrings.whiteSpace -> WhiteSpaceOnly s -> WhiteSpaceOnly (w ++ s).

(** The frames between two emissions: the groups closed by a frame that ends
    a sentence, and the frames left open after the last emission. [cur] holds
    the frames read since the previous emission. *)
Fixpoint frameGroups (cur : list Frame.t) (frames : list Frame.t)
  : list (list Frame.t) * list Frame.t :=
  match frames with
  | [] => ([], cur)
  | f :: frames' =>
      if endsSentence (Frame.Text f) then
        let '(groups, open) := frameGroups [] frames' in
        ((cur ++ [f])%list :: groups, open)
      else frameGroups (cur ++ [f])%list frames'
  end.

(** The start time of the first frame of a group. *)
Definition groupStart (g : list Frame.t) : string :=
  match g with
  | [] => ""
  | f :: _ => Frame.StartTime f
  end.

Definition groupSentence (join : list string -> string) (tok : Tokenizer)
           (g : list Frame.t) : Sentence.t :=
  newSentence tok (join (map Frame.Text g)) (groupStart g).

(** The provisional sentences as the description has them: one sentence per
    closed group, and one for the open group when its buffer is not empty;
    [join] builds the buffer from the texts of a group. *)
Definition provisionalSpec (join : list string -> string) (tok : Tokenizer)
           (frames : list Frame.t) : list Sentence.t :=
  let '(groups, open) := frameGroups [] frames in
  (map (groupSentence join tok) groups
   ++ (if (0 <? slen (join (map Frame.Text open)))%Z
       then [groupSentence join tok open] else []))%list.

(** The texts joined by single spaces. *)
Definition joinSpaces (texts : list string) : string := String.concat " " texts.

Fixpoint dropLeadingEmpty (texts : list string) : list string :=
  match texts with
  | EmptyString :: texts' => dropLeadingEmpty texts'
  | _ => texts
  end.

(** The texts joined by single spaces, the empty texts at the head left out. *)
Definition joinBuffer (texts : list string) : string :=
  String.concat " " (dropLeadingEmpty texts).

(** A legal segment: its tokens fit [max_size]. *)
Definition legalSegment (c : ChunkingConfig) (sents : list Sentence.t)
           (i j : nat) : Prop :=
  (segment_tokens sents i j <= MaxSize c)%Z.

(** The [start] table sends every position [j >= 1] to the left end of a
    legal segment ending at [j]. *)
Definition startTableOk (c : ChunkingConfig) (sents : list Sentence.t)
           (start : list nat) : Prop :=
  forall j, 1 <= j < List.length start ->
            nth j start 0 < j /\ legalSegment c sents (nth j start 0) j.

(** What holds of the segments found by backtracking. *)
Definition segmentInRange (c : ChunkingConfig) (sents : list Sentence.t)
           (seg : nat * nat) : Prop :=
  fst seg < snd seg <= List.length sents
  /\ legalSegment c sents (fst seg) (snd seg).

(** ** Vocabulary for the words of a text *)

(** The bytes of [enc] all differ from [c]. *)
Fixpoint avoids (c : ascii) (enc : string) : bool :=
  match enc with
  | EmptyString => true
  | String a enc' => negb (Ascii.eqb a c) && avoids c enc'
  end.

Definition tailOf (enc : string) : string :=
  match enc with
  | EmptyString => EmptyString
  | String _ t => t
  end.

(** No white-space rune starts inside [cur] when [cur] is followed by [s]. *)
Fixpoint cleanBefore (cur s : string) : bool :=
  match cur with
  | EmptyString => true
  | String _ cur' =>
      (GoStrings.spaceWidth (cur ++ s) =? 0)%nat && cleanBefore cur' s
  end.

(** A word: a non-empty text in which no white-space rune starts. *)
Definition wordLike (w : string) : Prop :=
  w <> "" /\ cleanBefore w "" = true.

(** ** Vocabulary for the grouping of words and frames *)

(** The runs of [l] closed by an element for which [ends] holds, and the run
    left open at the end; [cur] holds the elements read since the last
    closed run. *)
Fixpoint groupsBy {A : Type} (ends : A -> bool) (cur l : list A)
  : list (list A) * list A :=
  match l with
  | [] => ([], cur)
  | x :: l' =>
      if ends x then
        let '(groups, open) := groupsBy ends [] l' in
        ((cur ++ [x])%list :: groups, open)
      else groupsBy ends (cur ++ [x])%list l'
  end.

(** The closed runs followed by the open run when it is not empty. *)
Definition allGroups {A : Type} (p : list (list A) * list A) : list (list A) :=
  (fst p ++ match snd p with
            | [] => []
            | _ => [snd p]
            end)%list.

(** The sentence that holds the words [g] joined by single spaces. *)
Definition wordSentence (tok : Tokenizer) (startTime : string)
           (g : list string) : Sentence.t :=
  newSentence tok (String.concat " " g) startTime.

(** A group of words that the split pass may emit under the ceiling
    [maxTokens]: its join fits, or it is a single word. *)
Definition fitsOrSingle (tok : Tokenizer) (maxTokens : Z)
           (g : list string) : Prop :=
  (CountTokens tok (String.concat " " g) <= maxTokens)%Z \/ List.length g = 1.

(** Each group but the last is as long as the ceiling allows: the first word
    of the next group no longer fits behind it. *)
Fixpoint greedyGroups (tok : Tokenizer) (maxTokens : Z)
         (groups : list (list string)) : Prop :=
  match groups with
  | g :: rest =>
      match rest with
      | (w :: _) :: _ =>
          (maxTokens < CountTokens tok (String.concat " " g ++ " " ++ w))%Z
      | _ => True
      end
      /\ greedyGroups tok maxTokens rest
  | [] => True
  end.

(** ** Sample inputs *)

(** One token per white-space separated word. *)
Definition wordTokenizer : Tokenizer :=
  {| EncodeSingle := fun text =>
       Ok {| GetIds := map (fun w => slen w) (GoStrings.Fields text) |} |}.

Fixpoint byteIds (text : string) : list Z :=
  match text with
  | EmptyString => []
  | String a text' => Z.of_nat (nat_of_ascii a) :: byteIds text'
  end.

(** One token per byte. *)
Definition byteTokenizer : Tokenizer :=
  {| EncodeSingle := fun text => Ok {| GetIds := byteIds text |} |}.

(** One token per byte between a start and an end marker. *)
Definition markedTokenizer : Tokenizer :=
  {| EncodeSingle := fun text =>
       Ok {| GetIds := (101%Z :: byteIds text ++ [102%Z])%list |} |}.

(** A tokenizer that fails on every text. *)
Definition failingTokenizer : Tokenizer :=
  {| EncodeSingle := fun _ => Err "tokenizer failure" |}.

(** A tokenizer that is not subadditive: 1500 tokens for the text ["a b"],
    one token for any other text. *)
Definition spikeTokenizer : Tokenizer :=
  {| EncodeSingle := fun text =>
       if (text =? "a b")%string then Ok {| GetIds := repeat 0%Z 1500 |}
       else Ok {| GetIds := [0%Z] |} |}.

Definition textFrame (text : string) : Frame.t :=
  {| Frame.Text := text; Frame.StartTime := ""; Frame.EndTime := "" |}.

Definition timedFrame (text startTime : string) : Frame.t :=
  {| Frame.Text := text; Frame.StartTime := startTime; Frame.EndTime := "" |}.

(** A single word of [n] bytes. *)
Definition longWord (n : nat) : string :=
  string_of_list_ascii (repeat "a"%char n).

(** A provisional sentence of one 1500-byte word, 1500 tokens for the byte
    tokenizer. *)
Definition oversizeWordSentence : Sentence.t :=
  newSentence byteTokenizer (longWord 1500) "00:00:07".

(** Thirty words of 49 bytes: 1499 bytes, 1501 tokens for the marked
    tokenizer, 51 tokens for each word alone. *)
Definition thirtyWordSentence : Sentence.t :=
  newSentence markedTokenizer
              (String.concat " " (repeat (longWord 49) 30)) "00:00:07".

Definition spikeSentence : Sentence.t :=
  newSentence spikeTokenizer "a b" "00:00:07".

(** An embedded sentence. *)
Definition embedded (text : string) (tokens : Z) (e : list float32) : Sentence.t :=
  {| Sentence.Text := text; Sentence.StartTime := "";
     Sentence.Embedding := e; Sentence.TokenCount := tokens |}.

(** The dot product, the cosine similarity of unit vectors. *)
Definition dotProduct (a b : list float32) : Q :=
  fold_right Qplus 0%Q (map (fun '(x, y) => (x * y)%Q) (combine a b)).

Definition threeSentences : list Sentence.t :=
  [ embedded "Cats purr." 300 [1%Q; 0%Q];
    embedded "Cats sleep." 200 [1%Q; 0%Q];
    embedded "Stocks fell." 250 [0%Q; 1%Q] ].


(** An embedding model that counts words and embeds every text as [[1]]. *)
Definition sampleModel : EmbeddingModel :=
  {| Tokenizer_ := wordTokenizer;
     EmbedSentences := fun sentences =>
       Ok (map (fun s =>
                  {| Sentence.Text := Sentence.Text s;
                     Sentence.StartTime := Sentence.StartTime s;
                     Sentence.Embedding := [1%Q];
                     Sentence.TokenCount := Sentence.TokenCount s |})
               sentences);
     EmbedChunks := fun chunks =>
       Ok (map (fun ch =>
                  {| Chunk.Text := Chunk.Text ch;
                     Chunk.StartTime := Chunk.StartTime ch;
                     Chunk.Embedding := [1%Q];
                     Chunk.NumSentences := Chunk.NumSentences ch;
                     Chunk.TokenCount := Chunk.TokenCount ch;
                     Chunk.ChunkIndex := Chunk.ChunkIndex ch;
                     Chunk.SentenceEmbeddings := Chunk.SentenceEmbeddings ch |})
               chunks) |}.

(** A request of two documents, the first with an empty text. *)
Definition sampleBatch : BatchEmbedRequest :=
  {| Documents :=
       [ {| ID := "doc1"; Text := ""; ChunkingConfig_ := None |};
         {| ID := "doc2"; Text := "Hello world. Bye."; ChunkingConfig_ := None |} ] |}.

(** A decoder that accepts the body ["two documents"] as [sampleBatch], the
    body ["no documents"] as a request without documents, and rejects any
    other body. *)
Definition sampleDecode (body : string) : result BatchEmbedRequest :=
  if (body =? "two documents")%string then Ok sampleBatch
  else if (body =? "no documents")%string then Ok {| Documents := [] |}
  else Err "invalid character".

(** A configuration with a ceiling of two tokens. *)
Definition tightConfig : ChunkingConfig :=
  {| OptimalSize := 1%Z; MaxSize := 2%Z; LambdaSize := 2%Q; ChunkPenalty := 1%Q |}.

(** An environment that sets the three numeric variables. *)
Definition sampleEnv (name : string) : string :=
  if (name =? "READ_TIMEOUT_SECONDS")%string then "30"
  else if (name =? "WRITE_TIMEOUT_SECONDS")%string then "9223372037"
  else if (name =? "MAX_BATCH_TOKENS")%string then "12000"
  else "".

(** An embedding model whose sentence pass fails. *)
Definition failingModel : EmbeddingModel :=
  {| Tokenizer_ := wordTokenizer;
     EmbedSentences := fun _ => Err "inference failed";
     EmbedChunks := fun chunks => Ok chunks |}.

(** * Properties *)

(** ** The model at work *)

Example Fields_sample :
  GoStrings.Fields
    (GoStrings.bytes [9; 226; 128; 168] ++ "x" ++ GoStrings.bytes [194; 160]
     ++ "y?" ++ GoStrings.bytes [227; 128; 128; 10])
  = ["x"; "y?"].
Proof. reflexivity. Qed.

Example TrimSpace_sample :
  GoStrings.TrimSpace
    (GoStrings.bytes [9; 226; 128; 168] ++ "x y?" ++ GoStrings.bytes [227; 128; 128; 10])
  = "x y?".
Proof. reflexivity. Qed.

Example endsSentence_sample :
  endsSentence "done! " = true /\ endsSentence "e.g. this" = false.
Proof. split; reflexivity. Qed.

Example frames_sample :
  ExtractSentencesFromFrames wordTokenizer
    [timedFrame "Hello" "00:01"; timedFrame "world. " "00:02";
     timedFrame "Bye" "00:03"]
  = Some [ {| Sentence.Text := "Hello world. "; Sentence.StartTime := "00:01";
              Sentence.Embedding := []; Sentence.TokenCount := 2 |};
           {| Sentence.Text := "Bye"; Sentence.StartTime := "00:03";
              Sentence.Embedding := []; Sentence.TokenCount := 1 |} ].
Proof. reflexivity. Qed.

Example text_sample :
  ExtractSentencesFromText byteTokenizer "abcdef b c. d e" 3
  = Some [ newSentence byteTokenizer "abcdef" "";
           newSentence byteTokenizer "b" "";
           newSentence byteTokenizer "c." "";
           newSentence byteTokenizer "d e" "" ].
Proof. reflexivity. Qed.

Example chunker_sample :
  option_map
    (fun r => match r with
              | Ok chunks => map (fun ch => (Chunk.Text ch, Chunk.TokenCount ch)) chunks
              | Err _ => []
              end)
    (ExtractChunksFromSentences dotProduct DefaultChunkingConfig threeSentences)
  = Some [("Cats purr.", 300%Z); ("Cats sleep. Stocks fell.", 450%Z)].
Proof. vm_compute. reflexivity. Qed.

Example document_sample :
  processDocument dotProduct sampleModel
    {| ID := "doc2"; Text := "Hello world. Bye."; ChunkingConfig_ := None |}
  = Some {| drID := "doc2";
            drChunks :=
              [ {| crText := "Hello world. Bye."; crStartTime := "";
                   crEmbedding := [1%Q]; crNumSentences := 1;
                   crTokenCount := 3; crChunkIndex := 0 |} ];
            drError := "" |}.
Proof. vm_compute. reflexivity. Qed.

(** ** Termination of the word-splitting pass *)

Section SplitTermination.

Variable tok : Tokenizer.
Variable maxTokens : Z.

Lemma addWords_count (rest : list string) :
  forall (cur : string) (wc : nat),
    wc <= snd (addWords tok maxTokens rest cur wc) <= wc + List.length rest.
Proof.
  induction rest as [| w rest IH]; intros cur wc; cbn [addWords List.length].
  - simpl. lia.
  - destruct (maxTokens <? _)%Z.
    + simpl. lia.
    + specialize (IH (cur ++ " " ++ w) (S wc)). lia.
Qed.

Lemma splitWords_total (startTime : string) :
  forall (fuel : nat) (words : list string),
    List.length words <= fuel ->
    exists out, splitWords tok fuel maxTokens startTime words = Some out.
Proof.
  induction fuel as [| fuel IH]; intros words Hlen.
  - destruct words; simpl in *; [eauto | lia].
  - destruct words as [| w0 rest]; [simpl; eauto |].
    cbn [splitWords].
    pose proof (addWords_count rest w0 1) as Hwc.
    destruct (addWords tok maxTokens rest w0 1) as [chunkText wordCount].
    cbn [snd] in Hwc.
    destruct (IH (skipn wordCount (w0 :: rest))) as [subs Hsubs].
    + rewrite length_skipn. cbn [List.length] in *. lia.
    + rewrite Hsubs. eauto.
Qed.

Lemma splitSentence_total (sent : Sentence.t) :
  exists out, splitSentence tok maxTokens sent = Some out.
Proof.
  unfold splitSentence.
  destruct (_ <=? _)%Z; [eauto |].
  destruct (_ =? _)%Z; [eauto |].
  apply splitWords_total. lia.
Qed.

Lemma splitOversized_total (sents : list Sentence.t) :
  exists out, splitOversized tok maxTokens sents = Some out.
Proof.
  induction sents as [| sent sents [outs IH]]; simpl; [eauto |].
  destruct (splitSentence_total sent) as [out ->].
  rewrite IH. eauto.
Qed.

End SplitTermination.

Lemma ExtractSentencesFromFrames_total (tok : Tokenizer) (frames : list Frame.t) :
  exists sents, ExtractSentencesFromFrames tok frames = Some sents.
Proof.
  unfold ExtractSentencesFromFrames.
  destruct (_ =? _)%Z; [eauto | apply splitOversized_total].
Qed.

Lemma ExtractSentencesFromText_total (tok : Tokenizer) (text : string) (maxSize : Z) :
  exists sents, ExtractSentencesFromText tok text maxSize = Some sents.
Proof.
  unfold ExtractSentencesFromText.
  destruct (_ =? _)%string; [eauto | apply splitOversized_total].
Qed.

(** C10. The oversize word-splitting pass terminates for every word list and
    every tokenizer: each iteration of the outer loop takes [wordCount >= 1]
    words, so the remaining list is strictly shorter, and with one unit of
    fuel per word the loop returns; the pass over a sentence returns as well. *)
Theorem split_pass_terminates :
  forall (tok : Tokenizer) (maxTokens : Z),
    (forall (w0 : string) (rest : list string),
        let wordCount := snd (addWords tok maxTokens rest w0 1) in
        1 <= wordCount <= List.length (w0 :: rest)
        /\ List.length (skipn wordCount (w0 :: rest)) < List.length (w0 :: rest))
    /\ (forall (startTime : string) (words : list string),
           exists subs,
             splitWords tok (List.length words) maxTokens startTime words
             = Some subs)
    /\ (forall sent : Sentence.t,
           exists out, splitSentence tok maxTokens sent = Some out).
Proof.
  intros tok maxTokens. split; [| split].
  - intros w0 rest wordCount.
    pose proof (addWords_count tok maxTokens rest w0 1) as H.
    subst wordCount. rewrite length_skipn. cbn [List.length]. lia.
  - intros startTime words. apply splitWords_total. lia.
  - apply splitSentence_total.
Qed.

(** C7. A tokenizer error makes [CountTokens] return 0, and the segmenter
    returns a sentence list for every input and every tokenizer, on the
    frame path and on the text path. *)
Theorem count_tokens_error_segmenter_total :
  forall tok : Tokenizer,
    (forall (text msg : string),
        EncodeSingle tok text = Err msg -> CountTokens tok text = 0%Z)
    /\ (forall frames : list Frame.t,
           exists sents, ExtractSentencesFromFrames tok frames = Some sents)
    /\ (forall (text : string) (maxSize : Z),
           exists sents, ExtractSentencesFromText tok text maxSize = Some sents).
Proof.
  intros tok. split; [| split].
  - intros text msg H. unfold CountTokens. now rewrite H.
  - apply ExtractSentencesFromFrames_total.
  - apply ExtractSentencesFromText_total.
Qed.

Lemma count_tokens_error_segmenter_total_witness :
  EncodeSingle failingTokenizer "Hello world." = Err "tokenizer failure"
  /\ CountTokens failingTokenizer "Hello world." = 0%Z.
Proof.
  split; [reflexivity |].
  apply (proj1 (count_tokens_error_segmenter_total failingTokenizer)
               "Hello world." "tokenizer failure").
  reflexivity.
Defined.

(** ** What the word-splitting pass emits *)

Lemma append_assoc (a b c : string) : (a ++ b) ++ c = a ++ (b ++ c).
Proof. induction a as [| x a IH]; simpl; [reflexivity | now rewrite IH]. Qed.

Lemma append_nil_r (a : string) : a ++ "" = a.
Proof. induction a as [| x a IH]; simpl; [reflexivity | now rewrite IH]. Qed.

Lemma length_append (a b : string) :
  String.length (a ++ b) = String.length a + String.length b.
Proof. induction a as [| x a IH]; simpl; [reflexivity | now rewrite IH]. Qed.

Lemma concat_cons (sep x : string) (l : list string) :
  l <> [] -> String.concat sep (x :: l) = x ++ sep ++ String.concat sep l.
Proof. destruct l; [congruence | reflexivity]. Qed.

Lemma joinOnto_concat (l : list string) :
  forall cur, joinOnto cur l = String.concat " " (cur :: l).
Proof.
  induction l as [| w l IH]; intros cur; [reflexivity |].
  cbn [joinOnto fold_left]. fold (joinOnto (cur ++ " " ++ w) l).
  rewrite IH. destruct l as [| x l].
  - reflexivity.
  - rewrite (concat_cons " " (cur ++ " " ++ w)) by congruence.
    rewrite (concat_cons " " cur) by congruence.
    rewrite (concat_cons " " w) by congruence.
    now rewrite !append_assoc.
Qed.

Lemma concat_app_cons (l1 : list string) :
  forall (x : string) (l2 : list string),
    l2 <> [] ->
    String.concat " " (x :: l1) ++ " " ++ String.concat " " l2
    = String.concat " " (x :: l1 ++ l2).
Proof.
  induction l1 as [| y l1 IH]; intros x l2 Hl2.
  - cbn [app]. now rewrite (concat_cons " " x l2).
  - rewrite (concat_cons " " x (y :: l1)) by congruence.
    cbn [app]. rewrite (concat_cons " " x (y :: l1 ++ l2)) by congruence.
    rewrite <- (IH y l2 Hl2). now rewrite !append_assoc.
Qed.

Section SplitBounds.

Variable tok : Tokenizer.
Variable maxTokens : Z.

Lemma addWords_spec (rest : list string) :
  forall (cur : string) (wc : nat) (t : string) (wc' : nat),
    addWords tok maxTokens rest cur wc = (t, wc') ->
    exists k,
      wc' = wc + k /\ k <= List.length rest
      /\ t = joinOnto cur (firstn k rest)
      /\ (k = 0 \/ (CountTokens tok t <= maxTokens)%Z).
Proof.
  induction rest as [| w rest IH]; intros cur wc t wc' H; cbn [addWords] in H.
  - inversion H; subst. exists 0. cbn. repeat split; auto with arith.
  - destruct (maxTokens <? CountTokens tok (cur ++ " " ++ w))%Z eqn:Hlt.
    + inversion H; subst. exists 0. cbn. repeat split; auto with arith.
    + apply IH in H. destruct H as (k & -> & Hk & -> & Hfit).
      exists (S k). cbn [firstn joinOnto fold_left List.length].
      repeat split; [lia | lia | ].
      right. destruct Hfit as [-> | Hfit]; [| exact Hfit].
      cbn. apply Z.ltb_ge in Hlt. exact Hlt.
Qed.

Lemma subSentenceOf_incl (startTime : string) (small big : list string)
      (s : Sentence.t) :
  incl small big ->
  subSentenceOf tok maxTokens startTime small s -> subSentenceOf tok maxTokens startTime big s.
Proof.
  intros Hincl (H1 & H2 & [H3 | H3]); repeat split; auto; right; now apply Hincl.
Qed.

Lemma incl_skipn {A : Type} (n : nat) (l : list A) : incl (skipn n l) l.
Proof.
  intros x Hx. rewrite <- (firstn_skipn n l). apply in_or_app. now right.
Qed.

Lemma splitWords_spec (startTime : string) :
  forall (fuel : nat) (words : list string) (subs : list Sentence.t),
    splitWords tok fuel maxTokens startTime words = Some subs ->
    Forall (subSentenceOf tok maxTokens startTime words) subs
    /\ (words <> [] -> subs <> [])
    /\ String.concat " " (map Sentence.Text subs) = String.concat " " words.
Proof.
  induction fuel as [| fuel IH]; intros words subs H.
  - destruct words; cbn in H; [| discriminate].
    inversion H; subst.
    split; [constructor | split; [congruence | reflexivity]].
  - destruct words as [| w0 rest]; cbn [splitWords] in H.
    { inversion H; subst.
      split; [constructor | split; [congruence | reflexivity]]. }
    destruct (addWords tok maxTokens rest w0 1) as [chunkText wordCount] eqn:Hadd.
    apply addWords_spec in Hadd.
    destruct Hadd as (k & -> & Hk & -> & Hfit).
    change (skipn (1 + k) (w0 :: rest)) with (skipn k rest) in H.
    destruct (splitWords tok fuel maxTokens startTime (skipn k rest))
      as [subs' |] eqn:Hrec; [| discriminate].
    inversion H; subst subs; clear H.
    destruct (IH _ _ Hrec) as (Hall & Hne & Hjoin).
    split; [| split].
    + constructor.
      * repeat split. destruct Hfit as [-> | Hfit].
        -- right. cbn. now left.
        -- left. exact Hfit.
      * eapply Forall_impl; [| exact Hall].
        intros s. apply subSentenceOf_incl.
        intros x Hx. right. now apply (incl_skipn k rest).
    + congruence.
    + cbn [map newSentence Sentence.Text]. rewrite joinOnto_concat.
      destruct (skipn k rest) as [| x tl] eqn:Hskip.
      * destruct subs' as [| s' subs']; [| cbn in Hjoin].
        -- rewrite <- (firstn_skipn k rest) at 2. rewrite Hskip.
           now rewrite app_nil_r.
        -- exfalso. destruct fuel; cbn in Hrec; discriminate.
      * assert (Hsubs : subs' <> []) by (apply Hne; congruence).
        destruct subs' as [| s' subs']; [congruence |].
        rewrite concat_cons by (cbn; congruence).
        rewrite Hjoin.
        rewrite concat_app_cons by congruence.
        rewrite <- Hskip. now rewrite firstn_skipn.
Qed.

End SplitBounds.

Lemma concat_subadditive (tok : Tokenizer) :
  subadditive tok ->
  forall texts : list string,
    texts <> [] ->
    (CountTokens tok (String.concat " " texts)
     <= sumZ (map (CountTokens tok) texts))%Z.
Proof.
  intros Hsub texts. induction texts as [| t texts IH]; [congruence |].
  intros _. destruct texts as [| u texts].
  - cbn. lia.
  - rewrite concat_cons by congruence.
    specialize (IH ltac:(congruence)). specialize (Hsub t (String.concat " " (u :: texts))).
    unfold sumZ in *. cbn [map fold_right] in *. lia.
Qed.

Lemma sum_counts_bounded (tok : Tokenizer) (maxTokens : Z) (subs : list Sentence.t) :
  Forall (fun s => Sentence.TokenCount s = CountTokens tok (Sentence.Text s)
                   /\ (Sentence.TokenCount s <= maxTokens)%Z) subs ->
  (sumZ (map (CountTokens tok) (map Sentence.Text subs)) <= len subs * maxTokens)%Z.
Proof.
  unfold len. induction 1 as [| s subs [Heq Hle] _ IH].
  - cbn. lia.
  - cbn [map sumZ fold_right List.length] in *.
    rewrite Nat2Z.inj_succ, Z.mul_succ_l, <- Heq. unfold sumZ in *. lia.
Qed.

(** C3 (amended). For a provisional sentence over the ceiling with at least
    one word, the word-splitting pass returns a non-empty list of
    sub-sentences, each carrying the parent's start time and the tokenizer's
    count of its own text. When every word of the sentence fits the ceiling
    on its own, every sub-sentence fits it, and for a subadditive tokenizer
    the token count of the single-space join of the words is at most the
    number of sub-sentences times the ceiling: 1500 tokens under a ceiling of
    512 give at least 3 sub-sentences. *)
Theorem split_pass_sub_sentences :
  forall (tok : Tokenizer) (maxTokens : Z) (sent : Sentence.t),
    (maxTokens < Sentence.TokenCount sent)%Z ->
    GoStrings.Fields (Sentence.Text sent) <> [] ->
    exists subs,
      splitSentence tok maxTokens sent = Some subs
      /\ subs <> []
      /\ Forall (fun s =>
                   Sentence.StartTime s = Sentence.StartTime sent
                   /\ Sentence.TokenCount s = CountTokens tok (Sentence.Text s))
                subs
      /\ (Forall (fun w => (CountTokens tok w <= maxTokens)%Z)
                 (GoStrings.Fields (Sentence.Text sent)) ->
          Forall (fun s => (Sentence.TokenCount s <= maxTokens)%Z) subs
          /\ (subadditive tok ->
              (CountTokens tok
                 (String.concat " " (GoStrings.Fields (Sentence.Text sent)))
               <= len subs * maxTokens)%Z
              /\ (maxTokens = 512%Z ->
                  (1500 <= CountTokens tok
                     (String.concat " " (GoStrings.Fields (Sentence.Text sent))))%Z ->
                  3 <= List.length subs))).
Proof.
  intros tok maxTokens sent Hover Hwords.
  destruct (splitSentence_total tok maxTokens sent) as [subs Hsubs].
  exists subs. split; [exact Hsubs |].
  unfold splitSentence in Hsubs.
  destruct (Sentence.TokenCount sent <=? maxTokens)%Z eqn:Hle;
    [apply Z.leb_le in Hle; lia |].
  destruct (len (GoStrings.Fields (Sentence.Text sent)) =? 0)%Z eqn:Hlen.
  { apply Z.eqb_eq in Hlen. unfold len in Hlen.
    destruct (GoStrings.Fields (Sentence.Text sent)); [congruence | cbn in Hlen; lia]. }
  apply splitWords_spec in Hsubs. destruct Hsubs as (Hall & Hne & Hjoin).
  split; [auto | split].
  { eapply Forall_impl; [| exact Hall]. intros s (Hst & Hcount & _). auto. }
  intros Hfit.
  assert (Hbound : Forall (fun s => (Sentence.TokenCount s <= maxTokens)%Z) subs).
  { eapply Forall_impl; [| exact Hall].
    intros s (_ & Hcount & [Hs | Hs]); [exact Hs |].
    rewrite Hcount. rewrite Forall_forall in Hfit. now apply Hfit. }
  split; [exact Hbound |].
  intros Hsub.
  assert (Hcount : (CountTokens tok
                      (String.concat " " (GoStrings.Fields (Sentence.Text sent)))
                    <= len subs * maxTokens)%Z).
  { rewrite <- Hjoin.
    eapply Z.le_trans.
    - apply (concat_subadditive tok Hsub).
      specialize (Hne Hwords). destruct subs; [congruence | discriminate].
    - apply sum_counts_bounded.
      rewrite Forall_forall in *. intros s Hs.
      destruct (Hall s Hs) as (_ & Hc & _). split; [exact Hc | now apply Hbound]. }
  split; [exact Hcount |].
  intros -> H1500. unfold len in Hcount. lia.
Qed.

Lemma length_byteIds (text : string) :
  List.length (byteIds text) = String.length text.
Proof. induction text as [| a text IH]; cbn; [reflexivity | now rewrite IH]. Qed.

Lemma markedTokenizer_count (text : string) :
  CountTokens markedTokenizer text = (slen text + 2)%Z.
Proof.
  unfold CountTokens, len, slen. cbn [EncodeSingle markedTokenizer GetIds].
  cbn [List.length]. rewrite length_app, length_byteIds. cbn. lia.
Qed.

Lemma markedTokenizer_subadditive : subadditive markedTokenizer.
Proof.
  intros a b. rewrite !markedTokenizer_count. unfold slen.
  rewrite !length_append. cbn. lia.
Qed.

Lemma split_pass_sub_sentences_witness :
  (512 < Sentence.TokenCount thirtyWordSentence)%Z
  /\ GoStrings.Fields (Sentence.Text thirtyWordSentence) <> []
  /\ Forall (fun w => (CountTokens markedTokenizer w <= 512)%Z)
            (GoStrings.Fields (Sentence.Text thirtyWordSentence))
  /\ subadditive markedTokenizer
  /\ (1500 <= CountTokens markedTokenizer
                (String.concat " "
                   (GoStrings.Fields (Sentence.Text thirtyWordSentence))))%Z
  /\ exists subs,
      splitSentence markedTokenizer 512 thirtyWordSentence = Some subs
      /\ Forall (fun s => Sentence.StartTime s = "00:00:07") subs
      /\ Forall (fun s => (Sentence.TokenCount s <= 512)%Z) subs
      /\ 3 <= List.length subs.
Proof.
  assert (H1 : (512 < Sentence.TokenCount thirtyWordSentence)%Z)
    by (vm_compute; reflexivity).
  assert (H2 : GoStrings.Fields (Sentence.Text thirtyWordSentence) <> [])
    by (vm_compute; discriminate).
  assert (H3 : Forall (fun w => (CountTokens markedTokenizer w <= 512)%Z)
                      (GoStrings.Fields (Sentence.Text thirtyWordSentence))).
  { apply Forall_forall. intros w Hw. apply Z.leb_le. revert w Hw.
    apply forallb_forall. vm_compute. reflexivity. }
  assert (H5 : (1500 <= CountTokens markedTokenizer
                         (String.concat " "
                            (GoStrings.Fields (Sentence.Text thirtyWordSentence))))%Z)
    by (vm_compute; discriminate).
  split; [exact H1 | split; [exact H2 | split; [exact H3 | split;
    [exact markedTokenizer_subadditive | split; [exact H5 |]]]]].
  destruct (split_pass_sub_sentences markedTokenizer 512 thirtyWordSentence H1 H2)
    as (subs & Hsubs & _ & Hstart & Hrest).
  destruct (Hrest H3) as (Hbound & Hcount).
  destruct (Hcount markedTokenizer_subadditive) as (_ & H3subs).
  exists subs. split; [exact Hsubs | split; [| split; [exact Hbound |]]].
  - eapply Forall_impl; [| exact Hstart]. intros s [Hs _]. exact Hs.
  - exact (H3subs eq_refl H5).
Defined.

(** C3, counterexample. A sentence of 1500 tokens made of a single word is
    emitted as one sub-sentence of 1500 tokens under the ceiling 512; and for
    a tokenizer that is not subadditive a sentence of 1500 tokens yields two
    sub-sentences only. *)
Lemma split_pass_counterexample :
  Sentence.TokenCount oversizeWordSentence = 1500%Z
  /\ splitSentence byteTokenizer 512 oversizeWordSentence
     = Some [oversizeWordSentence]
  /\ Sentence.TokenCount spikeSentence = 1500%Z
  /\ splitSentence spikeTokenizer 512 spikeSentence
     = Some [newSentence spikeTokenizer "a" "00:00:07";
             newSentence spikeTokenizer "b" "00:00:07"].
Proof. repeat split; vm_compute; reflexivity. Qed.


(** ** Empty and white-space inputs *)

Lemma fieldsFrom_space (w s : string) :
  In w GoStrings.whiteSpace ->
  GoStrings.fieldsFrom (w ++ s) 0 "" = GoStrings.fieldsFrom s 0 "".
Proof.
  intros Hw. cbv [GoStrings.whiteSpace map In] in Hw.
  repeat (destruct Hw as [<- | Hw]; [reflexivity |]).
  destruct Hw.
Qed.

Lemma Fields_white_space (s : string) :
  WhiteSpaceOnly s -> GoStrings.Fields s = [].
Proof.
  unfold GoStrings.Fields. induction 1 as [| w s Hw _ IH]; [reflexivity |].
  now rewrite fieldsFrom_space.
Qed.

Lemma empty_frames_flush (tok : Tokenizer) (frames : list Frame.t) :
  Forall (fun f => Frame.Text f = "") frames ->
  forall st : frameState,
    sentences st = [] -> currentSentenceText st = "" ->
    flushRemaining tok (fold_left (frameStep tok) frames st) = [].
Proof.
  induction 1 as [| f frames Hf _ IH]; intros st Hs Hb.
  - cbn. unfold flushRemaining. now rewrite Hb, Hs.
  - cbn [fold_left]. apply IH; unfold frameStep; rewrite Hf, Hb; cbn; auto.
Qed.

Lemma single_frame_provisional (tok : Tokenizer) (f : Frame.t) :
  Frame.Text f <> "" ->
  provisionalFromFrames tok [f]
  = [newSentence tok (Frame.Text f) (Frame.StartTime f)].
Proof.
  intros Hne. unfold provisionalFromFrames. cbn [fold_left].
  unfold frameStep, frameInit. cbn [currentSentenceText isFirstFrame sentences].
  change (writeSep "" (Frame.Text f)) with (Frame.Text f).
  destruct (endsSentence (Frame.Text f)).
  - reflexivity.
  - unfold flushRemaining. cbn [currentSentenceText sentences currentStartTime].
    destruct (Frame.Text f) as [| a t]; [congruence |]. reflexivity.
Qed.

(** On the frame path a document of at most 512 tokens stays one sentence,
    whatever ceiling the chunking configuration sets. *)
Lemma frame_path_ceiling_is_512 (tok : Tokenizer) (text : string) :
  text <> "" ->
  (CountTokens tok text <= 512)%Z ->
  ExtractSentencesFromFrames tok [textFrame text]
  = Some [newSentence tok text ""].
Proof.
  intros Hne Hfit. unfold ExtractSentencesFromFrames. cbn [len List.length Z.eqb Z.of_nat].
  change (len [textFrame text] =? 0)%Z with false. cbn iota.
  rewrite (single_frame_provisional tok (textFrame text) Hne).
  cbn [splitOversized textFrame Frame.Text Frame.StartTime].
  unfold splitSentence. cbn [newSentence Sentence.TokenCount].
  apply Z.leb_le in Hfit. now rewrite Hfit.
Qed.

(** C1, at the failing input. A three-word sentence under a configuration
    with [max_size = 2] and a tokenizer counting words: the frame path keeps
    the sentence whole, with 3 tokens, because its ceiling is the constant
    512; the text path, given the ceiling 2, splits it. *)
Theorem frame_path_ignores_max_size :
  ExtractSentencesFromFrames wordTokenizer [textFrame "one two three."]
  = Some [newSentence wordTokenizer "one two three." ""]
  /\ Sentence.TokenCount (newSentence wordTokenizer "one two three." "") = 3%Z
  /\ MaxSize tightConfig = 2%Z
  /\ ExtractSentencesFromText wordTokenizer "one two three." (MaxSize tightConfig)
     = Some [newSentence wordTokenizer "one two" "";
             newSentence wordTokenizer "three." ""].
Proof. repeat split; vm_compute; reflexivity. Qed.

(** C5 (amended). The segmenter returns no sentence for an empty frame
    sequence, for the empty text, for frames whose texts are all empty, and,
    on the text path, for a text of white space only. On the frame path a
    single frame with a non-empty text, white space included, always yields
    one provisional sentence holding that text. *)
Theorem empty_inputs_yield_no_sentences :
  forall tok : Tokenizer,
    ExtractSentencesFromFrames tok [] = Some []
    /\ (forall maxSize, ExtractSentencesFromText tok "" maxSize = Some [])
    /\ (forall frames,
           Forall (fun f => Frame.Text f = "") frames ->
           ExtractSentencesFromFrames tok frames = Some [])
    /\ (forall text maxSize,
           WhiteSpaceOnly text ->
           ExtractSentencesFromText tok text maxSize = Some [])
    /\ (forall f,
           Frame.Text f <> "" ->
           provisionalFromFrames tok [f]
           = [newSentence tok (Frame.Text f) (Frame.StartTime f)]).
Proof.
  intros tok. repeat split.
  - intros frames Hall. unfold ExtractSentencesFromFrames.
    destruct (len frames =? 0)%Z; [reflexivity |].
    unfold provisionalFromFrames. now rewrite empty_frames_flush.
  - intros text maxSize Hws. unfold ExtractSentencesFromText.
    destruct (text =? "")%string; [reflexivity |].
    unfold provisionalFromText. now rewrite Fields_white_space.
  - apply single_frame_provisional.
Qed.

Lemma empty_inputs_yield_no_sentences_witness :
  Forall (fun f => Frame.Text f = "") [timedFrame "" "00:01"; timedFrame "" "00:02"]
  /\ ExtractSentencesFromFrames wordTokenizer
       [timedFrame "" "00:01"; timedFrame "" "00:02"] = Some []
  /\ WhiteSpaceOnly "  "
  /\ ExtractSentencesFromText wordTokenizer "  " 512 = Some [].
Proof.
  assert (H1 : Forall (fun f => Frame.Text f = "")
                      [timedFrame "" "00:01"; timedFrame "" "00:02"])
    by (repeat constructor).
  assert (H2 : WhiteSpaceOnly "  ").
  { apply (wso_cons " " " "); [cbv; tauto |].
    apply (wso_cons " " ""); [cbv; tauto | constructor]. }
  destruct (empty_inputs_yield_no_sentences wordTokenizer)
    as (_ & _ & Hframes & Htext & _).
  split; [exact H1 | split; [now apply Hframes | split; [exact H2 | now apply Htext]]].
Defined.

(** C5, counterexample. A frame holding a single space is white space only,
    and the frame path returns one sentence for it. *)
Lemma white_space_frame_counterexample :
  WhiteSpaceOnly " "
  /\ ExtractSentencesFromFrames wordTokenizer [textFrame " "]
     = Some [newSentence wordTokenizer " " ""]
  /\ ExtractSentencesFromFrames wordTokenizer [textFrame " "] <> Some [].
Proof.
  split; [| split].
  - apply (wso_cons " " ""); [cbv; tauto | constructor].
  - vm_compute. reflexivity.
  - vm_compute. discriminate.
Qed.

(** ** The frame loop *)

Lemma concat_head_nonempty (a : ascii) (x : string) (l : list string) :
  (0 <? slen (String.concat " " (String a x :: l)))%Z = true.
Proof. destruct l; reflexivity. Qed.

Lemma writeSep_joinBuffer (texts : list string) (t : string) :
  writeSep (joinBuffer texts) t = joinBuffer (texts ++ [t]).
Proof.
  unfold joinBuffer. induction texts as [| x texts IH].
  - destruct t; reflexivity.
  - destruct x as [| a x]; [exact IH |].
    cbn [app dropLeadingEmpty]. unfold writeSep.
    rewrite concat_head_nonempty, append_assoc.
    now rewrite <- (concat_app_cons texts (String a x) [t]) by congruence.
Qed.

Lemma groupStart_snoc (cur : list Frame.t) (f : Frame.t) :
  groupStart (cur ++ [f])
  = match cur with
    | [] => Frame.StartTime f
    | _ => groupStart cur
    end.
Proof. destruct cur; reflexivity. Qed.

Lemma frame_loop_groups (tok : Tokenizer) (frames : list Frame.t) :
  forall (cur : list Frame.t) (st : frameState),
    currentSentenceText st = joinBuffer (map Frame.Text cur) ->
    isFirstFrame st = match cur with [] => true | _ => false end ->
    (cur <> [] -> currentStartTime st = groupStart cur) ->
    flushRemaining tok (fold_left (frameStep tok) frames st)
    = (sentences st
       ++ (let '(groups, open) := frameGroups cur frames in
           map (groupSentence joinBuffer tok) groups
           ++ (if (0 <? slen (joinBuffer (map Frame.Text open)))%Z
               then [groupSentence joinBuffer tok open] else [])))%list.
Proof.
  induction frames as [| f frames IH]; intros cur st Hbuf Hfirst Hstart.
  - cbn [fold_left frameGroups map app]. unfold flushRemaining.
    rewrite Hbuf. destruct (0 <? slen _)%Z eqn:Hlen; [| now rewrite app_nil_r].
    unfold groupSentence. rewrite Hstart; [reflexivity |].
    intros ->. discriminate.
  - cbn [fold_left frameGroups].
    assert (Hst : (if isFirstFrame st then Frame.StartTime f else currentStartTime st)
                  = groupStart (cur ++ [f])).
    { rewrite groupStart_snoc, Hfirst. destruct cur; [reflexivity |].
      apply Hstart. discriminate. }
    assert (Hb : writeSep (currentSentenceText st) (Frame.Text f)
                 = joinBuffer (map Frame.Text (cur ++ [f]))).
    { rewrite Hbuf, map_app. apply writeSep_joinBuffer. }
    unfold frameStep at 2. rewrite Hst, Hb.
    destruct (endsSentence (Frame.Text f)).
    + rewrite (IH []); [| reflexivity | reflexivity | congruence].
      cbn [sentences]. destruct (frameGroups [] frames) as [groups open].
      cbn [map]. rewrite <- app_assoc. reflexivity.
    + rewrite (IH (cur ++ [f])%list); cbn [sentences currentSentenceText
                                           isFirstFrame currentStartTime]; auto.
      destruct cur; reflexivity.
Qed.

Lemma joinBuffer_no_empty (texts : list string) :
  Forall (fun t => t <> "") texts -> joinBuffer texts = joinSpaces texts.
Proof.
  unfold joinBuffer, joinSpaces. destruct 1 as [| t texts Ht _]; [reflexivity |].
  destruct t; [congruence | reflexivity].
Qed.

Lemma frameGroups_Forall (P : Frame.t -> Prop) (frames : list Frame.t) :
  forall cur : list Frame.t,
    Forall P cur -> Forall P frames ->
    Forall (Forall P) (fst (frameGroups cur frames))
    /\ Forall P (snd (frameGroups cur frames)).
Proof.
  induction frames as [| f frames IH]; intros cur Hcur Hframes.
  - cbn. auto.
  - inversion Hframes as [| ? ? Hf Hrest]; subst.
    assert (Hsnoc : Forall P (cur ++ [f])) by (apply Forall_app; auto).
    cbn [frameGroups]. destruct (endsSentence (Frame.Text f)).
    + destruct (IH [] (Forall_nil P) Hrest) as [Hg Ho].
      destruct (frameGroups [] frames) as [groups open]. cbn in *. auto.
    + now apply IH.
Qed.

(** C8 (amended). The provisional sentences of the frame loop are those of
    the groups of frames closed by a frame whose trimmed text ends in [.],
    [!] or [?], followed by the open group when its buffer is not empty. The
    text of a group is its frame texts joined by single spaces once the empty
    texts at its head are left out (nothing is written for them, no
    separator either); its start time is that of its first frame, whether or
    not that frame's text is empty. When no frame text is empty the buffer is
    the plain single-space join. *)
Theorem frame_loop_provisional_sentences :
  forall (tok : Tokenizer) (frames : list Frame.t),
    provisionalFromFrames tok frames = provisionalSpec joinBuffer tok frames
    /\ (Forall (fun f => Frame.Text f <> "") frames ->
        provisionalFromFrames tok frames = provisionalSpec joinSpaces tok frames).
Proof.
  intros tok frames.
  assert (Hgen : provisionalFromFrames tok frames
                 = provisionalSpec joinBuffer tok frames).
  { unfold provisionalFromFrames, provisionalSpec.
    rewrite (frame_loop_groups tok frames []); [reflexivity | reflexivity
                                                | reflexivity | congruence]. }
  split; [exact Hgen |].
  intros Hne. rewrite Hgen. unfold provisionalSpec.
  destruct (frameGroups_Forall (fun f => Frame.Text f <> "") frames []
              (Forall_nil _) Hne) as [Hg Ho].
  destruct (frameGroups [] frames) as [groups open]. cbn [fst snd] in *.
  assert (Hjoin : forall g, Forall (fun f => Frame.Text f <> "") g ->
                            joinBuffer (map Frame.Text g)
                            = joinSpaces (map Frame.Text g)).
  { intros g Hgne. apply joinBuffer_no_empty. now apply Forall_map. }
  rewrite (Hjoin open Ho). f_equal.
  - apply map_ext_in. intros g Hin. unfold groupSentence.
    rewrite Forall_forall in Hg. now rewrite (Hjoin g (Hg g Hin)).
  - unfold groupSentence. now rewrite (Hjoin open Ho).
Qed.

Lemma frame_loop_provisional_sentences_witness :
  Forall (fun f => Frame.Text f <> "")
         [timedFrame "Hello" "00:01"; timedFrame "world." "00:02";
          timedFrame "Bye" "00:03"]
  /\ provisionalFromFrames wordTokenizer
       [timedFrame "Hello" "00:01"; timedFrame "world." "00:02";
        timedFrame "Bye" "00:03"]
     = [newSentence wordTokenizer "Hello world." "00:01";
        newSentence wordTokenizer "Bye" "00:03"].
Proof.
  assert (H : Forall (fun f => Frame.Text f <> "")
                     [timedFrame "Hello" "00:01"; timedFrame "world." "00:02";
                      timedFrame "Bye" "00:03"])
    by (repeat constructor; discriminate).
  split; [exact H |].
  rewrite (proj2 (frame_loop_provisional_sentences wordTokenizer _) H).
  reflexivity.
Defined.

(** C8, counterexample. A frame with an empty text followed by a frame
    ending a sentence: the loop emits the text ["a."] under the start time of
    the empty frame, where the single-space join of the two texts is [" a."]. *)
Lemma frame_loop_counterexample :
  provisionalFromFrames wordTokenizer
    [timedFrame "" "00:01"; timedFrame "a." "00:02"]
  = [newSentence wordTokenizer "a." "00:01"]
  /\ provisionalSpec joinSpaces wordTokenizer
       [timedFrame "" "00:01"; timedFrame "a." "00:02"]
     = [newSentence wordTokenizer " a." "00:01"]
  /\ provisionalFromFrames wordTokenizer
       [timedFrame "" "00:01"; timedFrame "a." "00:02"]
     <> provisionalSpec joinSpaces wordTokenizer
          [timedFrame "" "00:01"; timedFrame "a." "00:02"].
Proof.
  split; [| split].
  - vm_compute. reflexivity.
  - vm_compute. reflexivity.
  - vm_compute. discriminate.
Qed.

(** ** The DP chunker *)

Lemma sumZ_app (l1 l2 : list Z) : sumZ (l1 ++ l2) = (sumZ l1 + sumZ l2)%Z.
Proof.
  unfold sumZ. induction l1 as [| x l1 IH]; cbn [app fold_right]; [reflexivity | lia].
Qed.

Lemma firstn_split {A : Type} (i : nat) :
  forall (j : nat) (l : list A),
    i <= j -> firstn j l = (firstn i l ++ firstn (j - i) (skipn i l))%list.
Proof.
  induction i as [| i IH]; intros j l Hij.
  - cbn. now rewrite Nat.sub_0_r.
  - destruct j as [| j]; [lia |]. destruct l as [| x l].
    + cbn [skipn]. now rewrite !firstn_nil.
    + cbn [firstn skipn app Nat.sub]. f_equal. apply IH. lia.
Qed.

Section DPProperties.

Variable cosine : list float32 -> list float32 -> Q.
Variable c : ChunkingConfig.
Variable sents : list Sentence.t.


Lemma nth_prefixZ (l : list Z) :
  forall (k : nat) (acc : Z),
    k <= List.length l ->
    nth k (prefixZ acc l) 0%Z = (acc + sumZ (firstn k l))%Z.
Proof.
  induction l as [| x l IH]; intros k acc Hk.
  - destruct k; [cbn; lia | cbn in Hk; lia].
  - destruct k as [| k]; [cbn; lia |].
    cbn [prefixZ nth firstn]. rewrite IH by (cbn in Hk; lia).
    unfold sumZ. cbn [fold_right]. lia.
Qed.

Lemma segment_tokens_slice (i j : nat) :
  i <= j -> j <= List.length sents ->
  segment_tokens sents i j = sumTokens (slice sents i j).
Proof.
  intros Hij Hj. unfold segment_tokens, prefix_tok, sumTokens, slice.
  rewrite !nth_prefixZ by (rewrite length_map; lia).
  rewrite (firstn_split i j) by exact Hij.
  rewrite sumZ_app, <- firstn_map, <- skipn_map. unfold sumZ. lia.
Qed.


Lemma candidate_legal (dp : list Q) (i j : nat) (s : Q) :
  candidate cosine c sents dp i j = Some s -> legalSegment c sents i j.
Proof.
  unfold candidate, size_penalty, legalSegment.
  destruct (MaxSize c <? segment_tokens sents i j)%Z eqn:H; [discriminate |].
  intros _. now apply Z.ltb_ge in H.
Qed.


Lemma best_start_legal (dp : list Q) (j : nat) (all : list nat) :
  forall (cands : list nat) (best : option (nat * Q)) (r : nat * Q),
    incl cands all ->
    (forall b, best = Some b -> In (fst b) all /\ legalSegment c sents (fst b) j) ->
    best_start cosine c sents dp j cands best = Some r ->
    In (fst r) all /\ legalSegment c sents (fst r) j.
Proof.
  induction cands as [| i cands IH]; intros best r Hincl Hbest H.
  - cbn in H. now apply Hbest.
  - cbn [best_start] in H.
    assert (Hin : In i all) by (apply Hincl; now left).
    assert (Hincl' : incl cands all) by (intros x Hx; apply Hincl; now right).
    destruct (candidate cosine c sents dp i j) as [s |] eqn:Hc.
    + assert (Hnew : forall b, Some (i, s) = Some b ->
                               In (fst b) all /\ legalSegment c sents (fst b) j).
      { intros b Hb. inversion Hb; subst. cbn. split; [exact Hin |].
        eapply candidate_legal; eauto. }
      destruct best as [[i0 b0] |].
      * destruct (Qle_bool s b0).
        -- exact (IH _ _ Hincl' Hbest H).
        -- exact (IH _ _ Hincl' Hnew H).
      * exact (IH _ _ Hincl' Hnew H).
    + exact (IH _ _ Hincl' Hbest H).
Qed.


Lemma startOk_snoc (start : list nat) (i : nat) :
  startTableOk c sents start -> 1 <= List.length start ->
  i < List.length start -> legalSegment c sents i (List.length start) ->
  startTableOk c sents (start ++ [i]).
Proof.
  intros Hok Hlen Hi Hleg j Hj. rewrite length_app in Hj. cbn in Hj.
  destruct (Nat.eq_dec j (List.length start)) as [-> | Hne].
  - rewrite app_nth2, Nat.sub_diag by lia. cbn. auto.
  - rewrite app_nth1 by lia. apply Hok. lia.
Qed.

Lemma dp_fill_sound (k : nat) :
  forall (a : nat) (dp dp' : list Q) (start start' : list nat),
    1 <= a -> List.length start = a -> startTableOk c sents start ->
    dp_fill cosine c sents (seq a k) dp start = Ok (dp', start') ->
    List.length start' = a + k /\ startTableOk c sents start'.
Proof.
  induction k as [| k IH]; intros a dp dp' start start' Ha Hlen Hok H.
  - cbn in H. inversion H; subst. split; [lia | exact Hok].
  - cbn [seq dp_fill] in H.
    destruct (best_start cosine c sents dp a (seq 0 a) None) as [[i s] |] eqn:Hb;
      [| discriminate].
    apply (best_start_legal dp a (seq 0 a)) in Hb;
      [| apply incl_refl | discriminate].
    cbn [fst] in Hb. destruct Hb as [Hin Hleg]. apply in_seq in Hin.
    apply IH in H.
    + split; [lia | tauto].
    + lia.
    + rewrite length_app. cbn. lia.
    + apply startOk_snoc; subst a; auto; lia.
Qed.


Lemma backtrack_spec (start : list nat) :
  startTableOk c sents start -> List.length start = S (List.length sents) ->
  forall (fuel j : nat),
    j <= fuel -> j <= List.length sents ->
    exists segs,
      backtrack fuel start j = Some segs
      /\ List.concat (map (fun '(i, j') => slice sents i j') (rev segs))
         = firstn j sents
      /\ Forall (segmentInRange c sents) segs.
Proof.
  intros Hok Hlen. induction fuel as [| fuel IH]; intros j Hfuel Hj.
  - assert (j = 0) by lia. subst. exists []. cbn. auto.
  - destruct j as [| j]; [exists []; cbn; auto |].
    destruct (Hok (S j)) as [Hlt Hleg]; [lia |].
    destruct (IH (nth (S j) start 0)) as (segs & Hsegs & Hcat & Hall); [lia | lia |].
    exists ((nth (S j) start 0, S j) :: segs).
    cbn [backtrack]. rewrite Hsegs. split; [reflexivity | split].
    + cbn [rev]. rewrite map_app, concat_app, Hcat. cbn [map List.concat].
      rewrite app_nil_r. symmetry. apply firstn_split. lia.
    + constructor; [| exact Hall]. split; cbn [fst snd]; [lia | exact Hleg].
Qed.

Lemma slice_ok (seg : nat * nat) :
  segmentInRange c sents seg ->
  slice sents (fst seg) (snd seg) <> []
  /\ (sumTokens (slice sents (fst seg) (snd seg)) <= MaxSize c)%Z.
Proof.
  intros [Hlt Hleg]. split.
  - intros Hnil. apply (f_equal (@List.length _)) in Hnil.
    unfold slice in Hnil. rewrite length_firstn, length_skipn in Hnil.
    cbn in Hnil. lia.
  - rewrite <- segment_tokens_slice by lia. exact Hleg.
Qed.

Lemma chunkGroups_sound (start : list nat) (dp : list Q) :
  dp_fill cosine c sents (seq 1 (List.length sents)) [0%Q] [0] = Ok (dp, start) ->
  exists groups,
    chunkGroups cosine c sents = Some (Ok groups)
    /\ List.concat groups = sents
    /\ Forall (fun g => g <> [] /\ (sumTokens g <= MaxSize c)%Z) groups.
Proof.
  intros Hfill. unfold chunkGroups. rewrite Hfill.
  apply dp_fill_sound in Hfill; [| lia | reflexivity | intros j Hj; cbn in Hj; lia].
  destruct Hfill as [Hlen Hok].
  destruct (backtrack_spec start Hok Hlen (List.length sents) (List.length sents))
    as (segs & -> & Hcat & Hall); [lia | lia |].
  eexists. split; [reflexivity | split].
  - rewrite Hcat. apply firstn_all.
  - apply Forall_map. apply Forall_rev. eapply Forall_impl; [| exact Hall].
    intros [i j] Hseg. now apply (slice_ok (i, j)).
Qed.

Lemma chunkGroups_total : exists r, chunkGroups cosine c sents = Some r.
Proof.
  destruct (dp_fill cosine c sents (seq 1 (List.length sents)) [0%Q] [0])
    as [[dp start] | e] eqn:Hfill.
  - destruct (chunkGroups_sound start dp Hfill) as (groups & -> & _). eauto.
  - unfold chunkGroups. rewrite Hfill. eauto.
Qed.


End DPProperties.

Lemma ExtractChunksFromSentences_total
      (cosine : list float32 -> list float32 -> Q) (c : ChunkingConfig)
      (sents : list Sentence.t) :
  exists r, ExtractChunksFromSentences cosine c sents = Some r.
Proof.
  unfold ExtractChunksFromSentences. destruct sents as [| s sents]; [eauto |].
  destruct (chunkGroups_total cosine c (s :: sents)) as [[groups | e] ->]; eauto.
Qed.




(** ** The handler *)

Section ServerProperties.

Variable cosine : list float32 -> list float32 -> Q.
Variable embeddingModel : EmbeddingModel.

Lemma processText_total (text : string) (chunkingConfig : ChunkingConfig) :
exists r, processText cosine embeddingModel text chunkingConfig = Some r.
Proof.
unfold processText.
destruct (ExtractSentencesFromFrames_total (Tokenizer_ embeddingModel)
            [ {| Frame.Text := text; Frame.StartTime := "";
                 Frame.EndTime := "" |} ]) as [sentences ->].
destruct (len sentences =? 0)%Z; [eauto |].
destruct (EmbedSentences embeddingModel sentences) as [embedded | e]; [| eauto].
destruct (ExtractChunksFromSentences_total cosine chunkingConfig embedded)
  as [[chunks | e] ->]; [| eauto].
destruct (EmbedChunks embeddingModel chunks); eauto.
Qed.

Lemma processDocument_total (doc : EmbedRequest) :
exists resp, processDocument cosine embeddingModel doc = Some resp.
Proof.
unfold processDocument. destruct (Text doc =? "")%string; [eauto |].
destruct (processText_total (Text doc)
            match ChunkingConfig_ doc with
            | Some cfg => cfg
            | None => DefaultChunkingConfig
            end) as [r ->].
eauto.
Qed.

Lemma processDocuments_spec (docs : list EmbedRequest) :
exists resps,
  processDocuments cosine embeddingModel docs = Some (resps, docs)
  /\ Forall2 (fun doc resp =>
                processDocument cosine embeddingModel doc = Some resp)
             docs resps.
Proof.
induction docs as [| doc docs (resps & IH & Hall)].
- exists []. split; [reflexivity | constructor].
- destruct (processDocument_total doc) as [resp Hresp].
  exists (resp :: resps). cbn [processDocuments]. rewrite Hresp, IH.
  split; [reflexivity | now constructor].
Qed.

Lemma processDocument_empty_text (doc : EmbedRequest) (resp : DocumentResponse) :
Text doc = "" ->
processDocument cosine embeddingModel doc = Some resp ->
drID resp = ID doc
/\ drError resp = "Text field is required"
/\ drError resp <> ""
/\ drChunks resp = [].
Proof.
intros Htext. unfold processDocument. rewrite Htext. cbn.
intros H. inversion H; subst. cbn. repeat split. discriminate.
Qed.

End ServerProperties.

(** C4. For a POST request whose body decodes to a non-empty list of
    documents, the handler answers with one document response per document,
    in request order, each being what [processDocument] returns for that
    document, and every document was handed to [processDocument]; a document
    with an empty text gets the error ["Text field is required"] and no
    chunks. *)
Theorem empty_text_document_error :
  forall (cosine : list float32 -> list float32 -> Q)
         (jsonDecode : string -> result BatchEmbedRequest)
         (embeddingModel : EmbeddingModel) (r : Request)
         (batchReq : BatchEmbedRequest),
    Method r = MethodPost ->
    jsonDecode (Body r) = Ok batchReq ->
    Documents batchReq <> [] ->
    exists resps,
      handleEmbed cosine jsonDecode r embeddingModel
      = Some (HttpJSON {| brDocuments := resps |}, Documents batchReq)
      /\ Forall2 (fun doc resp =>
                    processDocument cosine embeddingModel doc = Some resp)
                 (Documents batchReq) resps
      /\ Forall2 (fun doc resp =>
                    Text doc = "" ->
                    drID resp = ID doc
                    /\ drError resp = "Text field is required"
                    /\ drError resp <> ""
                    /\ drChunks resp = [])
                 (Documents batchReq) resps.
Proof.
  intros cosine jsonDecode embeddingModel r batchReq Hpost Hdec Hne.
  destruct (processDocuments_spec cosine embeddingModel (Documents batchReq))
    as (resps & Hdocs & Hall).
  exists resps. split; [| split; [exact Hall |]].
  - unfold handleEmbed. rewrite Hpost, Hdec, Hdocs. cbn.
    destruct (Documents batchReq); [congruence | reflexivity].
  - eapply Forall2_impl; [| exact Hall].
    intros doc resp Hresp Htext.
    now apply (processDocument_empty_text cosine embeddingModel doc).
Qed.

Lemma empty_text_document_error_witness :
  Method {| Method := "POST"; Body := "two documents" |} = MethodPost
  /\ sampleDecode "two documents" = Ok sampleBatch
  /\ Documents sampleBatch <> []
  /\ exists resp1 resp2,
      handleEmbed dotProduct sampleDecode
                  {| Method := "POST"; Body := "two documents" |} sampleModel
      = Some (HttpJSON {| brDocuments := [resp1; resp2] |}, Documents sampleBatch)
      /\ drError resp1 = "Text field is required"
      /\ drChunks resp1 = []
      /\ processDocument dotProduct sampleModel
           {| ID := "doc2"; Text := "Hello world. Bye."; ChunkingConfig_ := None |}
         = Some resp2.
Proof.
  assert (H3 : Documents sampleBatch <> []) by discriminate.
  split; [reflexivity | split; [reflexivity | split; [exact H3 |]]].
  destruct (empty_text_document_error dotProduct sampleDecode sampleModel
              {| Method := "POST"; Body := "two documents" |} sampleBatch
              eq_refl eq_refl H3) as (resps & Hresp & Hall & Hempty).
  cbn [Documents sampleBatch] in Hall, Hempty.
  inversion Hall as [| d1 resp1 ds rs Hd1 Hall1]; subst.
  inversion Hall1 as [| d2 resp2 ds' rs' Hd2 Hall2]; subst.
  inversion Hall2; subst.
  inversion Hempty as [| ? ? ? ? He1 _]; subst.
  destruct (He1 eq_refl) as (_ & Herr & _ & Hchunks).
  exists resp1, resp2. auto.
Defined.



(** C9. [DefaultChunkingConfig] is [optimal_size = 470], [max_size = 512],
    [lambda_size = 2.0], [chunk_penalty = 1.0]; a document with a text and no
    configuration is processed with exactly these values, and a document
    with a configuration is processed with that configuration. *)
Theorem default_chunking_config_used :
  DefaultChunkingConfig
  = {| OptimalSize := 470%Z; MaxSize := 512%Z;
       LambdaSize := 2%Q; ChunkPenalty := 1%Q |}
  /\ forall (cosine : list float32 -> list float32 -> Q)
            (embeddingModel : EmbeddingModel) (doc : EmbedRequest),
      Text doc <> "" ->
      (ChunkingConfig_ doc = None ->
       processDocument cosine embeddingModel doc
       = option_map (documentResponse (ID doc))
           (processText cosine embeddingModel (Text doc)
              {| OptimalSize := 470%Z; MaxSize := 512%Z;
                 LambdaSize := 2%Q; ChunkPenalty := 1%Q |}))
      /\ (forall cfg,
             ChunkingConfig_ doc = Some cfg ->
             processDocument cosine embeddingModel doc
             = option_map (documentResponse (ID doc))
                 (processText cosine embeddingModel (Text doc) cfg)).
Proof.
  split; [reflexivity |].
  intros cosine embeddingModel doc Htext.
  apply String.eqb_neq in Htext.
  split; [intros Hcfg | intros cfg Hcfg];
    unfold processDocument; rewrite Htext, Hcfg; reflexivity.
Qed.

Lemma default_chunking_config_used_witness :
  Text {| ID := "doc2"; Text := "Hello world. Bye."; ChunkingConfig_ := None |} <> ""
  /\ processDocument dotProduct sampleModel
       {| ID := "doc2"; Text := "Hello world. Bye."; ChunkingConfig_ := None |}
     = option_map (documentResponse "doc2")
         (processText dotProduct sampleModel "Hello world. Bye."
            {| OptimalSize := 470%Z; MaxSize := 512%Z;
               LambdaSize := 2%Q; ChunkPenalty := 1%Q |})
  /\ processDocument dotProduct sampleModel
       {| ID := "doc3"; Text := "Hello world. Bye.";
          ChunkingConfig_ := Some tightConfig |}
     = option_map (documentResponse "doc3")
         (processText dotProduct sampleModel "Hello world. Bye." tightConfig).
Proof.
  assert (H : "Hello world. Bye." <> "") by discriminate.
  split; [exact H | split].
  - apply (proj1 (proj2 default_chunking_config_used dotProduct sampleModel
                    {| ID := "doc2"; Text := "Hello world. Bye.";
                       ChunkingConfig_ := None |} H)).
    reflexivity.
  - apply (proj2 (proj2 default_chunking_config_used dotProduct sampleModel
                    {| ID := "doc3"; Text := "Hello world. Bye.";
                       ChunkingConfig_ := Some tightConfig |} H)).
    reflexivity.
Defined.


(** * Further properties *)

(** ** Fields and the single-space join *)

Lemma HasPrefix_app_avoids (enc : string) :
  forall (x : string) (c : ascii) (s : string),
    avoids c enc = true ->
    GoStrings.HasPrefix (x ++ String c s) enc = GoStrings.HasPrefix x enc.
Proof.
  induction enc as [| a enc IH]; intros x c s Hav; [reflexivity |].
  cbn [avoids] in Hav. apply andb_prop in Hav. destruct Hav as [Hac Henc].
  destruct x as [| b x]; cbn [append GoStrings.HasPrefix].
  - apply negb_true_iff in Hac. now rewrite Hac.
  - now rewrite IH.
Qed.

Lemma HasPrefix_app_tail (enc x : string) (c : ascii) (s : string) :
  x <> "" ->
  avoids c (tailOf enc) = true ->
  GoStrings.HasPrefix (x ++ String c s) enc = GoStrings.HasPrefix x enc.
Proof.
  intros Hx Hav. destruct enc as [| a enc]; [reflexivity |].
  destruct x as [| b x]; [congruence |].
  cbn [append GoStrings.HasPrefix tailOf] in *. now rewrite HasPrefix_app_avoids.
Qed.

Lemma HasPrefix_app (enc : string) :
  forall x y : string,
    GoStrings.HasPrefix x enc = true -> GoStrings.HasPrefix (x ++ y) enc = true.
Proof.
  induction enc as [| a enc IH]; intros x y H; [reflexivity |].
  destruct x as [| b x]; cbn [append GoStrings.HasPrefix] in *; [discriminate |].
  apply andb_prop in H. destruct H as [-> H]. cbn. now apply IH.
Qed.

Lemma HasPrefix_length (enc : string) :
  forall x : string,
    GoStrings.HasPrefix x enc = true -> String.length enc <= String.length x.
Proof.
  induction enc as [| a enc IH]; intros x H; [cbn; lia |].
  destruct x as [| b x]; cbn [GoStrings.HasPrefix] in H; [discriminate |].
  apply andb_prop in H. destruct H as [_ H]. apply IH in H. cbn. lia.
Qed.

Lemma find_ext_in {A : Type} (f g : A -> bool) (l : list A) :
  (forall x, In x l -> f x = g x) -> find f l = find g l.
Proof.
  induction l as [| x l IH]; intros H; [reflexivity |].
  cbn. rewrite (H x) by now left.
  destruct (g x); [reflexivity |]. apply IH. intros y Hy. apply H. now right.
Qed.

Lemma spaceWidth_app_space (x s : string) :
  x <> "" ->
  GoStrings.spaceWidth (x ++ String " " s) = GoStrings.spaceWidth x.
Proof.
  intros Hx. unfold GoStrings.spaceWidth, GoStrings.spaceWidthIn.
  rewrite (find_ext_in (fun w => GoStrings.HasPrefix (x ++ String " " s) w)
                       (fun w => GoStrings.HasPrefix x w)); [reflexivity |].
  intros enc Henc. apply HasPrefix_app_tail; [exact Hx |].
  assert (Hall : forallb (fun e => avoids " " (tailOf e)) GoStrings.whiteSpace = true)
    by reflexivity.
  rewrite forallb_forall in Hall. now apply Hall.
Qed.

Lemma spaceWidth_zero (s : string) :
  GoStrings.spaceWidth s = 0 <->
  forall enc, In enc GoStrings.whiteSpace -> GoStrings.HasPrefix s enc = false.
Proof.
  unfold GoStrings.spaceWidth, GoStrings.spaceWidthIn. split.
  - destruct (find _ _) as [enc |] eqn:Hfind.
    + apply find_some in Hfind. destruct Hfind as [Hin _].
      assert (Hall : forallb (fun e => (0 <? String.length e)%nat) GoStrings.whiteSpace = true)
        by reflexivity.
      rewrite forallb_forall in Hall. apply Hall, Nat.ltb_lt in Hin. lia.
    + intros _ enc Henc. now apply (find_none _ _ Hfind).
  - intros H. destruct (find _ _) as [enc |] eqn:Hfind; [| reflexivity].
    apply find_some in Hfind. destruct Hfind as [Hin Hp].
    rewrite (H enc Hin) in Hp. discriminate.
Qed.

Lemma spaceWidth_bound (s : string) (k : nat) :
  GoStrings.spaceWidth s = S k -> S k <= String.length s.
Proof.
  unfold GoStrings.spaceWidth, GoStrings.spaceWidthIn.
  destruct (find _ _) as [enc |] eqn:Hfind; [| discriminate].
  apply find_some in Hfind. destruct Hfind as [_ Hp].
  apply HasPrefix_length in Hp. lia.
Qed.

Lemma spaceWidth_prefix_zero (v y : string) :
  GoStrings.spaceWidth (v ++ y) = 0 -> GoStrings.spaceWidth v = 0.
Proof.
  rewrite !spaceWidth_zero. intros H enc Henc.
  destruct (GoStrings.HasPrefix v enc) eqn:Hp; [| reflexivity].
  apply (HasPrefix_app enc v y) in Hp. rewrite (H enc Henc) in Hp. discriminate.
Qed.

Lemma emit_app (cur : string) (l1 l2 : list string) :
  GoStrings.emit cur (l1 ++ l2) = (GoStrings.emit cur l1 ++ l2)%list.
Proof. destruct cur; reflexivity. Qed.

Lemma fieldsFrom_app_space (b : string) (a : string) :
  forall (skip : nat) (cur : string),
    skip <= String.length a ->
    GoStrings.fieldsFrom (a ++ String " " b) skip cur
    = (GoStrings.fieldsFrom a skip cur ++ GoStrings.Fields b)%list.
Proof.
  induction a as [| c a IH]; intros skip cur Hskip.
  - cbn in Hskip. assert (skip = 0) by lia. subst skip.
    change (GoStrings.fieldsFrom ("" ++ String " " b) 0 cur)
      with (GoStrings.emit cur (GoStrings.fieldsFrom b 0 "")).
    cbn [GoStrings.fieldsFrom]. unfold GoStrings.Fields.
    rewrite <- emit_app. reflexivity.
  - cbn [append GoStrings.fieldsFrom]. destruct skip as [| k].
    + change (String c (a ++ String " " b)) with (String c a ++ String " " b).
      rewrite spaceWidth_app_space by discriminate.
      destruct (GoStrings.spaceWidth (String c a)) as [| k] eqn:Hw.
      * apply IH. lia.
      * apply spaceWidth_bound in Hw. cbn in Hw.
        rewrite IH by lia. now rewrite emit_app.
    + apply IH. cbn in Hskip. lia.
Qed.

Lemma Fields_app_space (a b : string) :
  GoStrings.Fields (a ++ " " ++ b)
  = (GoStrings.Fields a ++ GoStrings.Fields b)%list.
Proof. unfold GoStrings.Fields at 1 2. apply fieldsFrom_app_space. lia. Qed.

Lemma cleanBefore_snoc (cur : string) (c : ascii) (s : string) :
  cleanBefore cur (String c s) = true ->
  GoStrings.spaceWidth (String c s) = 0 ->
  cleanBefore (cur ++ String c "") s = true.
Proof.
  intros Hclean Hc. induction cur as [| a cur IH].
  - cbn [append cleanBefore]. rewrite Hc. reflexivity.
  - cbn [append cleanBefore] in *. apply andb_prop in Hclean.
    destruct Hclean as [Ha Hrest]. rewrite (IH Hrest), andb_true_r.
    change (String a (cur ++ String c "") ++ s)
      with (String a ((cur ++ String c "") ++ s)).
    rewrite append_assoc. exact Ha.
Qed.

Lemma cleanBefore_nil (cur s : string) :
  cleanBefore cur s = true -> cleanBefore cur "" = true.
Proof.
  induction cur as [| a cur IH]; intros H; [reflexivity |].
  cbn [cleanBefore] in *. apply andb_prop in H. destruct H as [Ha Hrest].
  rewrite (IH Hrest), andb_true_r. apply Nat.eqb_eq in Ha. apply Nat.eqb_eq.
  rewrite append_nil_r. exact (spaceWidth_prefix_zero (String a cur) s Ha).
Qed.

Lemma fieldsFrom_wordLike (s : string) :
  forall (skip : nat) (cur : string),
    (skip = 0 -> cleanBefore cur s = true) ->
    (skip <> 0 -> cur = "") ->
    Forall wordLike (GoStrings.fieldsFrom s skip cur).
Proof.
  induction s as [| c s IH]; intros skip cur Hclean Hcur.
  - cbn. destruct cur as [| a cur]; [constructor |].
    constructor; [| constructor]. split; [discriminate |].
    apply Hclean. destruct skip; [reflexivity |].
    discriminate (Hcur ltac:(discriminate)).
  - cbn [GoStrings.fieldsFrom]. destruct skip as [| k].
    + specialize (Hclean eq_refl).
      destruct (GoStrings.spaceWidth (String c s)) as [| k] eqn:Hw.
      * apply IH; [| congruence]. intros _. now apply cleanBefore_snoc.
      * assert (Hrest : Forall wordLike (GoStrings.fieldsFrom s k ""))
          by (apply IH; [reflexivity | reflexivity]).
        destruct cur as [| a cur]; [exact Hrest |].
        constructor; [| exact Hrest]. split; [discriminate |].
        now apply cleanBefore_nil in Hclean.
    + rewrite (Hcur ltac:(discriminate)).
      apply IH; [reflexivity | reflexivity].
Qed.

Lemma Fields_wordLike (s : string) : Forall wordLike (GoStrings.Fields s).
Proof. apply fieldsFrom_wordLike; [reflexivity | congruence]. Qed.

Lemma fieldsFrom_clean (w : string) :
  forall cur : string,
    cleanBefore w "" = true ->
    GoStrings.fieldsFrom w 0 cur = GoStrings.emit (cur ++ w) [].
Proof.
  induction w as [| c w IH]; intros cur H.
  - cbn. now rewrite append_nil_r.
  - cbn [cleanBefore] in H. apply andb_prop in H. destruct H as [Hc Hw].
    rewrite append_nil_r in Hc. apply Nat.eqb_eq in Hc.
    cbn [GoStrings.fieldsFrom]. rewrite Hc, (IH _ Hw), append_assoc. reflexivity.
Qed.

Lemma Fields_word (w : string) : wordLike w -> GoStrings.Fields w = [w].
Proof.
  intros [Hne Hclean]. unfold GoStrings.Fields. rewrite fieldsFrom_clean by exact Hclean.
  destruct w; [congruence | reflexivity].
Qed.

Lemma Fields_concat_words (words : list string) :
  Forall wordLike words ->
  GoStrings.Fields (String.concat " " words) = words.
Proof.
  induction 1 as [| w words Hw Hall IH]; [reflexivity |].
  destruct words as [| u words]; [now apply Fields_word |].
  rewrite concat_cons by congruence.
  rewrite Fields_app_space, IH, Fields_word by exact Hw. reflexivity.
Qed.

(** ** Groups of words *)

Section Groups.

Context {A : Type} (ends : A -> bool).

Lemma groupsBy_concat (l : list A) :
  forall cur : list A,
    (List.concat (fst (groupsBy ends cur l)) ++ snd (groupsBy ends cur l))%list
    = (cur ++ l)%list.
Proof.
  induction l as [| x l IH]; intros cur; cbn [groupsBy].
  - cbn. now rewrite app_nil_r.
  - destruct (ends x).
    + specialize (IH []). destruct (groupsBy ends [] l) as [groups open].
      cbn [fst snd List.concat] in *. rewrite <- !app_assoc, IH. reflexivity.
    + rewrite IH, <- app_assoc. reflexivity.
Qed.

Lemma groupsBy_nonempty (l : list A) :
  forall cur : list A, Forall (fun g => g <> []) (fst (groupsBy ends cur l)).
Proof.
  induction l as [| x l IH]; intros cur; cbn [groupsBy].
  - constructor.
  - destruct (ends x); [| apply IH].
    specialize (IH []). destruct (groupsBy ends [] l) as [groups open].
    cbn [fst] in *. constructor; [| exact IH]. now destruct cur.
Qed.

Lemma groupsBy_inner (l : list A) :
  forall cur : list A,
    Forall (fun x => ends x = false) cur ->
    Forall (fun g => Forall (fun x => ends x = false) (removelast g))
           (fst (groupsBy ends cur l))
    /\ Forall (fun x => ends x = false) (snd (groupsBy ends cur l)).
Proof.
  induction l as [| x l IH]; intros cur Hcur; cbn [groupsBy].
  - split; [constructor | exact Hcur].
  - destruct (ends x) eqn:Hx.
    + destruct (IH [] (Forall_nil _)) as [Hg Ho].
      destruct (groupsBy ends [] l) as [groups open]. cbn [fst snd] in *.
      split; [| exact Ho]. constructor; [| exact Hg].
      rewrite removelast_last. exact Hcur.
    + apply IH. apply Forall_app. split; [exact Hcur | now constructor].
Qed.

Lemma allGroups_concat (cur l : list A) :
  List.concat (allGroups (groupsBy ends cur l)) = (cur ++ l)%list.
Proof.
  rewrite <- (groupsBy_concat l cur). unfold allGroups.
  rewrite concat_app. destruct (snd (groupsBy ends cur l)); cbn;
    now rewrite ?app_nil_r.
Qed.

Lemma allGroups_nonempty (cur l : list A) :
  Forall (fun g => g <> []) (allGroups (groupsBy ends cur l)).
Proof.
  unfold allGroups. apply Forall_app. split; [apply groupsBy_nonempty |].
  destruct (snd (groupsBy ends cur l)); repeat constructor. discriminate.
Qed.

Lemma Forall_removelast (P : A -> Prop) (g : list A) :
  Forall P g -> Forall P (removelast g).
Proof.
  induction 1 as [| x g Hx Hg IH]; [constructor |].
  cbn. destruct g; [constructor | now constructor].
Qed.

Lemma allGroups_inner (l : list A) :
  Forall (fun g => Forall (fun x => ends x = false) (removelast g))
         (allGroups (groupsBy ends [] l)).
Proof.
  destruct (groupsBy_inner l [] (Forall_nil _)) as [Hg Ho].
  unfold allGroups. apply Forall_app. split; [exact Hg |].
  destruct (snd (groupsBy ends [] l)) eqn:Hs; repeat constructor.
  now apply Forall_removelast.
Qed.

(** Cutting the groups further keeps the inner elements inner. *)
Lemma regroup_inner (P : A -> Prop) (subs : list (list A)) :
  Forall (fun g => g <> []) subs ->
  Forall P (removelast (List.concat subs)) ->
  Forall (fun g => Forall P (removelast g)) subs.
Proof.
  induction 1 as [| x subs Hx Hsubs IH]; intros H; [constructor |].
  destruct subs as [| y subs].
  - cbn in H. rewrite app_nil_r in H. now repeat constructor.
  - assert (Hne : List.concat (y :: subs) <> []).
    { inversion Hsubs; subst. cbn. destruct y; [congruence | discriminate]. }
    cbn [List.concat] in H. change (y ++ List.concat subs)%list
      with (List.concat (y :: subs)) in H.
    rewrite removelast_app in H by exact Hne.
    apply Forall_app in H. destruct H as [H1 H2].
    constructor; [now apply Forall_removelast | now apply IH].
Qed.

End Groups.

Lemma frameGroups_groupsBy (frames : list Frame.t) :
  forall cur : list Frame.t,
    frameGroups cur frames
    = groupsBy (fun f => endsSentence (Frame.Text f)) cur frames.
Proof.
  induction frames as [| f frames IH]; intros cur; cbn [frameGroups groupsBy];
    [reflexivity |].
  destruct (endsSentence (Frame.Text f)); now rewrite IH.
Qed.

Lemma groupsBy_Forall {A : Type} (ends : A -> bool) (P : A -> Prop) (l : list A) :
  forall cur : list A,
    Forall P cur -> Forall P l ->
    Forall (Forall P) (fst (groupsBy ends cur l))
    /\ Forall P (snd (groupsBy ends cur l)).
Proof.
  induction l as [| x l IH]; intros cur Hcur Hl; cbn [groupsBy].
  - split; [constructor | exact Hcur].
  - inversion Hl as [| ? ? Hx Hrest]; subst.
    assert (Hsnoc : Forall P (cur ++ [x])) by (apply Forall_app; auto).
    destruct (ends x); [| now apply IH].
    destruct (IH [] (Forall_nil _) Hrest) as [Hg Ho].
    destruct (groupsBy ends [] l) as [groups open]. cbn [fst snd] in *. auto.
Qed.

Lemma allGroups_Forall {A : Type} (ends : A -> bool) (P : A -> Prop) (l : list A) :
  Forall P l -> Forall (Forall P) (allGroups (groupsBy ends [] l)).
Proof.
  intros Hl. destruct (groupsBy_Forall ends P l [] (Forall_nil _) Hl) as [Hg Ho].
  unfold allGroups. apply Forall_app. split; [exact Hg |].
  destruct (snd (groupsBy ends [] l)); [constructor |].
  constructor; [exact Ho | constructor].
Qed.

(** ** The text path, group by group *)

Section TextPath.

Variable tok : Tokenizer.

Lemma writeSep_words (cur : list string) (w : string) :
  Forall (fun x => x <> "") cur -> w <> "" ->
  writeSep (String.concat " " cur) w = String.concat " " (cur ++ [w]).
Proof.
  intros Hcur Hw.
  assert (Hsnoc : Forall (fun x => x <> "") (cur ++ [w]))
    by (apply Forall_app; auto).
  rewrite <- (joinBuffer_no_empty cur Hcur) at 1.
  rewrite writeSep_joinBuffer. now apply joinBuffer_no_empty.
Qed.

Lemma text_loop_groups (words : list string) :
  forall (cur : list string) (sents : list Sentence.t),
    Forall (fun x => x <> "") cur -> Forall (fun x => x <> "") words ->
    fold_left (wordStep tok) words (sents, String.concat " " cur)
    = ((sents ++ map (wordSentence tok "") (fst (groupsBy endsSentence cur words)))%list,
       String.concat " " (snd (groupsBy endsSentence cur words))).
Proof.
  induction words as [| w words IH]; intros cur sents Hcur Hwords.
  - cbn. now rewrite app_nil_r.
  - inversion Hwords as [| ? ? Hw Hrest]; subst.
    cbn [fold_left groupsBy]. unfold wordStep at 2.
    rewrite (writeSep_words cur w Hcur Hw).
    destruct (endsSentence w).
    + change "" with (String.concat " " []) at 2.
      rewrite (IH [] _ (Forall_nil _) Hrest).
      destruct (groupsBy endsSentence [] words) as [groups open].
      cbn [fst snd map]. rewrite <- app_assoc. reflexivity.
    + apply IH; [| exact Hrest]. apply Forall_app. auto.
Qed.

Lemma provisionalFromText_groups (text : string) :
  provisionalFromText tok text
  = map (wordSentence tok "")
        (allGroups (groupsBy endsSentence [] (GoStrings.Fields text))).
Proof.
  assert (Hne : Forall (fun x => x <> "") (GoStrings.Fields text)).
  { eapply Forall_impl; [| apply Fields_wordLike]. now intros w [Hw _]. }
  unfold provisionalFromText.
  change (@nil Sentence.t, "") with (@nil Sentence.t, String.concat " " []).
  rewrite (text_loop_groups _ [] [] (Forall_nil _) Hne).
  destruct (groupsBy_Forall endsSentence _ _ [] (Forall_nil _) Hne) as [_ Ho].
  unfold allGroups.
  destruct (groupsBy endsSentence [] (GoStrings.Fields text)) as [groups open].
  cbn [fst snd app] in *. destruct open as [| w open].
  - cbn. now rewrite app_nil_r.
  - inversion Ho as [| ? ? Hw _]; subst. destruct w as [| a w]; [congruence |].
    rewrite concat_head_nonempty, map_app. reflexivity.
Qed.

Variable maxTokens : Z.

Lemma splitWords_groups (startTime : string) :
  forall (fuel : nat) (words : list string) (subs : list Sentence.t),
    splitWords tok fuel maxTokens startTime words = Some subs ->
    exists groups,
      List.concat groups = words
      /\ Forall (fun g => g <> []) groups
      /\ subs = map (wordSentence tok startTime) groups
      /\ Forall (fitsOrSingle tok maxTokens) groups.
Proof.
  induction fuel as [| fuel IH]; intros words subs H.
  - destruct words; cbn in H; [| discriminate]. inversion H; subst.
    exists []. repeat split; constructor.
  - destruct words as [| w0 rest]; cbn [splitWords] in H.
    { inversion H; subst. exists []. repeat split; constructor. }
    destruct (addWords tok maxTokens rest w0 1) as [chunkText wordCount] eqn:Hadd.
    apply addWords_spec in Hadd. destruct Hadd as (k & -> & Hk & -> & Hfit).
    change (skipn (1 + k) (w0 :: rest)) with (skipn k rest) in H.
    destruct (splitWords tok fuel maxTokens startTime (skipn k rest))
      as [subs' |] eqn:Hrec; [| discriminate].
    inversion H; subst subs; clear H.
    destruct (IH _ _ Hrec) as (groups & Hcat & Hne & -> & Hfits).
    exists ((w0 :: firstn k rest) :: groups). split; [| split; [| split]].
    + cbn [List.concat]. rewrite Hcat. cbn [app]. now rewrite firstn_skipn.
    + constructor; [discriminate | exact Hne].
    + cbn [map]. unfold wordSentence at 1. now rewrite joinOnto_concat.
    + constructor; [| exact Hfits]. unfold fitsOrSingle.
      destruct Hfit as [-> | Hfit]; [now right | left].
      now rewrite <- joinOnto_concat.
Qed.

Lemma splitSentence_groups (startTime : string) (g : list string) (out : list Sentence.t) :
  Forall wordLike g -> g <> [] ->
  splitSentence tok maxTokens (wordSentence tok startTime g) = Some out ->
  exists groups,
    List.concat groups = g
    /\ Forall (fun x => x <> []) groups
    /\ out = map (wordSentence tok startTime) groups
    /\ Forall (fitsOrSingle tok maxTokens) groups.
Proof.
  intros Hwords Hne. unfold splitSentence.
  cbn [wordSentence newSentence Sentence.TokenCount Sentence.Text Sentence.StartTime].
  destruct (_ <=? _)%Z eqn:Hle.
  - intros H. inversion H; subst. exists [g].
    split; [cbn; apply app_nil_r |].
    split; [constructor; [exact Hne | constructor] |].
    split; [reflexivity |].
    constructor; [left; now apply Z.leb_le | constructor].
  - rewrite (Fields_concat_words g Hwords).
    destruct (len g =? 0)%Z eqn:Hlen.
    + apply Z.eqb_eq in Hlen. unfold len in Hlen. destruct g; [congruence | cbn in Hlen; lia].
    + apply splitWords_groups.
Qed.

Lemma splitOversized_groups (startTime : string) (gs : list (list string)) :
  Forall (Forall wordLike) gs -> Forall (fun g => g <> []) gs ->
  Forall (fun g => Forall (fun w => endsSentence w = false) (removelast g)) gs ->
  forall out,
    splitOversized tok maxTokens (map (wordSentence tok startTime) gs) = Some out ->
    exists groups,
      out = map (wordSentence tok startTime) groups
      /\ List.concat groups = List.concat gs
      /\ Forall (fun g => g <> []) groups
      /\ Forall (fitsOrSingle tok maxTokens) groups
      /\ Forall (fun g => Forall (fun w => endsSentence w = false) (removelast g))
                groups.
Proof.
  induction gs as [| g gs IH]; intros Hwords Hne Hinner out H.
  - cbn in H. inversion H; subst. exists []. repeat split; constructor.
  - inversion Hwords as [| ? ? Hg Hgs]; subst.
    inversion Hne as [| ? ? Hg1 Hgs1]; subst.
    inversion Hinner as [| ? ? Hg2 Hgs2]; subst.
    cbn [map splitOversized] in H.
    destruct (splitSentence tok maxTokens (wordSentence tok startTime g))
      as [o |] eqn:Ho; [| discriminate].
    destruct (splitOversized tok maxTokens (map (wordSentence tok startTime) gs))
      as [os |] eqn:Hos; [| discriminate].
    inversion H; subst out; clear H.
    destruct (splitSentence_groups startTime g o Hg Hg1 Ho)
      as (g1 & Hc1 & Hn1 & -> & Hf1).
    destruct (IH Hgs Hgs1 Hgs2 os eq_refl) as (g2 & -> & Hc2 & Hn2 & Hf2 & Hi2).
    exists (g1 ++ g2)%list. rewrite map_app, concat_app, Hc1, Hc2.
    repeat split; try (apply Forall_app; split; assumption).
    apply Forall_app. split; [| exact Hi2].
    apply regroup_inner; [exact Hn1 | now rewrite Hc1].
Qed.

End TextPath.

Lemma text_path_groups (tok : Tokenizer) (text : string) (maxSize : Z) :
  exists groups,
    ExtractSentencesFromText tok text maxSize
    = Some (map (wordSentence tok "") groups)
    /\ List.concat groups = GoStrings.Fields text
    /\ Forall (Forall wordLike) groups
    /\ Forall (fun g => g <> []) groups
    /\ Forall (fitsOrSingle tok maxSize) groups
    /\ Forall (fun g => Forall (fun w => endsSentence w = false) (removelast g))
              groups.
Proof.
  unfold ExtractSentencesFromText. destruct (text =? "")%string eqn:Htext.
  - apply String.eqb_eq in Htext. subst. exists []. repeat split; constructor.
  - rewrite provisionalFromText_groups.
    set (gs := allGroups (groupsBy endsSentence [] (GoStrings.Fields text))).
    assert (Hw : Forall (Forall wordLike) gs)
      by (apply allGroups_Forall, Fields_wordLike).
    destruct (splitOversized_total tok maxSize (map (wordSentence tok "") gs))
      as [out Hout].
    destruct (splitOversized_groups tok maxSize "" gs Hw
                (allGroups_nonempty _ _ _) (allGroups_inner _ _) out Hout)
      as (groups & -> & Hcat & Hne & Hfit & Hinner).
    exists groups. rewrite Hout. split; [reflexivity |].
    split; [rewrite Hcat; apply allGroups_concat |].
    split; [| auto].
    assert (Hall : Forall wordLike (List.concat groups)).
    { rewrite Hcat. unfold gs. rewrite allGroups_concat. apply Fields_wordLike. }
    clear - Hall. induction groups as [| g groups IH]; [constructor |].
    cbn in Hall. apply Forall_app in Hall. destruct Hall. constructor; auto.
Qed.

(** ** The split pass on any sentence *)

Section SplitAny.

Variable tok : Tokenizer.
Variable maxTokens : Z.

Lemma Fields_wordSentence (startTime : string) (g : list string) :
  Forall wordLike g ->
  GoStrings.Fields (Sentence.Text (wordSentence tok startTime g)) = g.
Proof. intros Hg. cbn. now apply Fields_concat_words. Qed.

Lemma concat_Fields_wordSentences (startTime : string) (groups : list (list string)) :
  Forall wordLike (List.concat groups) ->
  List.concat (map (fun s => GoStrings.Fields (Sentence.Text s))
                   (map (wordSentence tok startTime) groups))
  = List.concat groups.
Proof.
  induction groups as [| g groups IH]; intros H; [reflexivity |].
  cbn [List.concat] in H. apply Forall_app in H. destruct H as [Hg Hrest].
  cbn [map List.concat]. now rewrite IH, (Fields_wordSentence startTime g Hg).
Qed.

(** What the split pass makes of one sentence: its words, in order, spread
    over a non-empty list of sentences that carry its start time; each of
    them is the sentence itself or a fresh sentence that fits the ceiling or
    holds a single word. *)
Lemma splitSentence_any (sent : Sentence.t) (out : list Sentence.t) :
  splitSentence tok maxTokens sent = Some out ->
  out <> []
  /\ List.concat (map (fun s => GoStrings.Fields (Sentence.Text s)) out)
     = GoStrings.Fields (Sentence.Text sent)
  /\ Forall (fun s =>
               Sentence.StartTime s = Sentence.StartTime sent
               /\ (s = sent \/ s = newSentence tok (Sentence.Text s) (Sentence.StartTime sent))
               /\ ((Sentence.TokenCount s <= maxTokens)%Z
                   \/ GoStrings.Fields (Sentence.Text s) = []
                   \/ (In (Sentence.Text s) (GoStrings.Fields (Sentence.Text sent))
                       /\ Sentence.TokenCount s = CountTokens tok (Sentence.Text s))))
            out.
Proof.
  unfold splitSentence. destruct (_ <=? _)%Z eqn:Hle.
  { intros H. inversion H; subst. split; [discriminate |]. split.
    - cbn. apply app_nil_r.
    - constructor; [| constructor].
      split; [reflexivity |]. split; [now left |]. left. now apply Z.leb_le. }
  destruct (len (GoStrings.Fields (Sentence.Text sent)) =? 0)%Z eqn:Hlen.
  { intros H. inversion H; subst. split; [discriminate |]. split.
    - cbn. apply app_nil_r.
    - constructor; [| constructor].
      split; [reflexivity |]. split; [now left |].
      right. left. apply Z.eqb_eq in Hlen.
      unfold len in Hlen. destruct (GoStrings.Fields (Sentence.Text sent));
        [reflexivity | cbn in Hlen; lia]. }
  intros H. apply splitWords_groups in H.
  destruct H as (groups & Hcat & Hne & -> & Hfit).
  pose proof (Fields_wordLike (Sentence.Text sent)) as Hwords.
  rewrite <- Hcat in Hwords.
  split; [| split].
  - destruct groups; [| discriminate]. cbn in Hcat. rewrite <- Hcat in Hlen.
    discriminate.
  - rewrite concat_Fields_wordSentences by exact Hwords. exact Hcat.
  - apply Forall_map. rewrite Forall_forall. intros g Hg.
    split; [reflexivity |]. split; [right; reflexivity |].
    rewrite Forall_forall in Hfit. destruct (Hfit g Hg) as [Hle' | Hone].
    + left. exact Hle'.
    + right. right. destruct g as [| w [| ? ?]]; try discriminate.
      cbn. split; [| reflexivity]. rewrite <- Hcat.
      apply in_concat. exists [w]. split; [exact Hg | now left].
Qed.

Lemma splitOversized_any (sents : list Sentence.t) :
  forall out,
    splitOversized tok maxTokens sents = Some out ->
    (sents <> [] -> out <> [])
    /\ List.concat (map (fun s => GoStrings.Fields (Sentence.Text s)) out)
       = List.concat (map (fun s => GoStrings.Fields (Sentence.Text s)) sents)
    /\ Forall (fun s =>
                 exists sent,
                   In sent sents
                   /\ Sentence.StartTime s = Sentence.StartTime sent
                   /\ (s = sent \/ s = newSentence tok (Sentence.Text s) (Sentence.StartTime sent))
                   /\ ((Sentence.TokenCount s <= maxTokens)%Z
                       \/ GoStrings.Fields (Sentence.Text s) = []
                       \/ (In (Sentence.Text s) (GoStrings.Fields (Sentence.Text sent))
                           /\ Sentence.TokenCount s = CountTokens tok (Sentence.Text s))))
              out.
Proof.
  induction sents as [| sent sents IH]; intros out H.
  - cbn in H. inversion H; subst. split; [congruence |]. split; [reflexivity | constructor].
  - cbn [splitOversized] in H.
    destruct (splitSentence tok maxTokens sent) as [o |] eqn:Ho; [| discriminate].
    destruct (splitOversized tok maxTokens sents) as [os |] eqn:Hos; [| discriminate].
    inversion H; subst out; clear H.
    destruct (splitSentence_any sent o Ho) as (Hne & Hcat & Hall).
    destruct (IH os eq_refl) as (_ & Hcat' & Hall').
    split; [| split].
    + intros _ Hnil. apply app_eq_nil in Hnil. tauto.
    + cbn [map List.concat]. now rewrite map_app, concat_app, Hcat, Hcat'.
    + apply Forall_app. split.
      * eapply Forall_impl; [| exact Hall]. intros s Hs. exists sent.
        split; [now left | exact Hs].
      * eapply Forall_impl; [| exact Hall']. intros s (sent' & Hin & Hs).
        exists sent'. split; [now right | exact Hs].
Qed.

End SplitAny.

(** ** The frame path, group by group *)

Lemma Fields_concat_texts (texts : list string) :
  GoStrings.Fields (String.concat " " texts)
  = List.concat (map GoStrings.Fields texts).
Proof.
  induction texts as [| t texts IH]; [reflexivity |].
  destruct texts as [| u texts].
  - cbn. now rewrite app_nil_r.
  - rewrite concat_cons by congruence. rewrite Fields_app_space, IH. reflexivity.
Qed.

Lemma Fields_joinBuffer (texts : list string) :
  GoStrings.Fields (joinBuffer texts) = List.concat (map GoStrings.Fields texts).
Proof.
  unfold joinBuffer. induction texts as [| t texts IH]; [reflexivity |].
  destruct t as [| a t]; [exact IH |]. apply Fields_concat_texts.
Qed.

Lemma slen_zero (s : string) : (0 <? slen s)%Z = false -> s = "".
Proof. destruct s; [reflexivity | discriminate]. Qed.

Lemma joinBuffer_empty (texts : list string) :
  joinBuffer texts = "" -> Forall (fun t => t = "") texts.
Proof.
  unfold joinBuffer. induction texts as [| t texts IH]; intros H; [constructor |].
  destruct t as [| a t]; [constructor; auto |].
  cbn [dropLeadingEmpty] in H.
  pose proof (concat_head_nonempty a t texts) as Hne. rewrite H in Hne. discriminate.
Qed.

Section FramePath.

Variable tok : Tokenizer.

Lemma provisionalFromFrames_spec (frames : list Frame.t) :
  provisionalFromFrames tok frames = provisionalSpec joinBuffer tok frames.
Proof.
  unfold provisionalFromFrames, provisionalSpec.
  rewrite (frame_loop_groups tok frames []); [reflexivity | reflexivity
                                              | reflexivity | congruence].
Qed.

Lemma frameGroups_concat (frames : list Frame.t) :
  (List.concat (fst (frameGroups [] frames)) ++ snd (frameGroups [] frames))%list
  = frames.
Proof. rewrite frameGroups_groupsBy. apply (groupsBy_concat _ frames []). Qed.

Lemma concat_map_concat {A B : Type} (f : A -> list B) (groups : list (list A)) :
  List.concat (map (fun g => List.concat (map f g)) groups)
  = List.concat (map f (List.concat groups)).
Proof.
  induction groups as [| g groups IH]; [reflexivity |].
  cbn [map List.concat]. now rewrite map_app, concat_app, IH.
Qed.

Lemma provisional_words (frames : list Frame.t) :
  List.concat (map (fun s => GoStrings.Fields (Sentence.Text s))
                   (provisionalFromFrames tok frames))
  = List.concat (map (fun f => GoStrings.Fields (Frame.Text f)) frames).
Proof.
  rewrite provisionalFromFrames_spec. unfold provisionalSpec.
  pose proof (frameGroups_concat frames) as Hcat.
  destruct (frameGroups [] frames) as [groups open]. cbn [fst snd] in Hcat.
  rewrite <- Hcat. rewrite map_app, concat_app, map_app, concat_app.
  f_equal.
  - rewrite map_map. rewrite <- concat_map_concat. f_equal.
    apply map_ext. intros g. unfold groupSentence. cbn [newSentence Sentence.Text].
    now rewrite Fields_joinBuffer, map_map.
  - assert (Hopen : GoStrings.Fields (joinBuffer (map Frame.Text open))
                    = List.concat (map (fun f => GoStrings.Fields (Frame.Text f)) open))
      by now rewrite Fields_joinBuffer, map_map.
    destruct (0 <? slen _)%Z eqn:Hlen.
    + cbn. now rewrite app_nil_r.
    + apply slen_zero in Hlen. rewrite Hlen in Hopen. cbn in *. now rewrite <- Hopen.
Qed.

Lemma groupStart_in (g frames : list Frame.t) :
  g <> [] -> incl g frames -> In (groupStart g) (map Frame.StartTime frames).
Proof.
  intros Hne Hincl. destruct g as [| f g]; [congruence |].
  cbn. apply in_map. apply Hincl. now left.
Qed.

Lemma provisional_starts (frames : list Frame.t) :
  Forall (fun s =>
            In (Sentence.StartTime s) (map Frame.StartTime frames)
            /\ s = newSentence tok (Sentence.Text s) (Sentence.StartTime s))
         (provisionalFromFrames tok frames).
Proof.
  rewrite provisionalFromFrames_spec. unfold provisionalSpec.
  pose proof (frameGroups_concat frames) as Hcat.
  pose proof (groupsBy_nonempty (fun f => endsSentence (Frame.Text f)) frames [])
    as Hne.
  rewrite <- frameGroups_groupsBy in Hne.
  destruct (frameGroups [] frames) as [groups open]. cbn [fst snd] in *.
  apply Forall_app. split.
  - apply Forall_map. rewrite Forall_forall in *. intros g Hg.
    split; [| reflexivity]. cbn. apply groupStart_in; [now apply Hne |].
    intros f Hf. rewrite <- Hcat. apply in_or_app. left.
    apply in_concat. eauto.
  - destruct (0 <? slen _)%Z eqn:Hlen; [| constructor].
    constructor; [| constructor]. split; [| reflexivity].
    cbn. apply groupStart_in.
    + intros ->. discriminate.
    + intros f Hf. rewrite <- Hcat. apply in_or_app. now right.
Qed.

Lemma provisional_nil (frames : list Frame.t) :
  provisionalFromFrames tok frames = [] ->
  Forall (fun f => Frame.Text f = "") frames.
Proof.
  rewrite provisionalFromFrames_spec. unfold provisionalSpec.
  pose proof (frameGroups_concat frames) as Hcat.
  destruct (frameGroups [] frames) as [groups open]. cbn [fst snd] in *.
  intros H. apply app_eq_nil in H. destruct H as [Hg Ho].
  destruct groups; [| discriminate]. cbn in Hcat. subst open.
  destruct (0 <? slen _)%Z eqn:Hlen; [discriminate |].
  apply slen_zero, joinBuffer_empty in Hlen.
  rewrite Forall_map in Hlen. exact Hlen.
Qed.

End FramePath.

(** ** What the text path returns *)

(** X1. The text path neither loses, repeats nor reorders a word: the words
    of the returned sentences, taken in order, are the words of the text.
    Every returned sentence has at least one word and is the single-space
    join of its words, with an empty start time. *)
Theorem text_path_keeps_words :
  forall (tok : Tokenizer) (text : string) (maxSize : Z),
    exists out,
      ExtractSentencesFromText tok text maxSize = Some out
      /\ List.concat (map (fun s => GoStrings.Fields (Sentence.Text s)) out)
         = GoStrings.Fields text
      /\ Forall (fun s =>
                   GoStrings.Fields (Sentence.Text s) <> []
                   /\ Sentence.Text s
                      = String.concat " " (GoStrings.Fields (Sentence.Text s))
                   /\ Sentence.StartTime s = "")
                out.
Proof.
  intros tok text maxSize.
  destruct (text_path_groups tok text maxSize)
    as (groups & Hout & Hcat & Hwords & Hne & _).
  eexists. split; [exact Hout |]. split.
  - rewrite concat_Fields_wordSentences; [exact Hcat |].
    rewrite Hcat. apply Fields_wordLike.
  - apply Forall_map. rewrite Forall_forall in *. intros g Hg.
    rewrite (Fields_wordSentence tok "" g (Hwords g Hg)).
    split; [now apply Hne | split; reflexivity].
Qed.

(** X2. On the text path a sentence never runs past a terminator: in every
    returned sentence only the last word may end in [.], [!] or [?]. *)
Theorem text_path_sentence_ends :
  forall (tok : Tokenizer) (text : string) (maxSize : Z),
    exists out,
      ExtractSentencesFromText tok text maxSize = Some out
      /\ Forall (fun s =>
                   Forall (fun w => endsSentence w = false)
                          (removelast (GoStrings.Fields (Sentence.Text s))))
                out.
Proof.
  intros tok text maxSize.
  destruct (text_path_groups tok text maxSize)
    as (groups & Hout & _ & Hwords & _ & _ & Hinner).
  eexists. split; [exact Hout |].
  apply Forall_map. rewrite Forall_forall in *. intros g Hg.
  rewrite (Fields_wordSentence tok "" g (Hwords g Hg)). now apply Hinner.
Qed.

(** X3. On the text path, when every word of the text fits [maxSize] on its
    own, every returned sentence has at most [maxSize] tokens. *)
Theorem text_path_respects_max_size :
  forall (tok : Tokenizer) (text : string) (maxSize : Z),
    Forall (fun w => (CountTokens tok w <= maxSize)%Z) (GoStrings.Fields text) ->
    exists out,
      ExtractSentencesFromText tok text maxSize = Some out
      /\ Forall (fun s => (Sentence.TokenCount s <= maxSize)%Z) out.
Proof.
  intros tok text maxSize Hfit.
  destruct (text_path_groups tok text maxSize)
    as (groups & Hout & Hcat & _ & _ & Hfits & _).
  eexists. split; [exact Hout |].
  apply Forall_map. rewrite Forall_forall in *. intros g Hg.
  destruct (Hfits g Hg) as [Hle | Hone]; [exact Hle |].
  destruct g as [| w [| ? ?]]; try discriminate. cbn.
  apply Hfit. rewrite <- Hcat. apply in_concat. exists [w]. split; [exact Hg | now left].
Qed.

Lemma text_path_respects_max_size_witness :
  Forall (fun w => (CountTokens byteTokenizer w <= 5)%Z)
         (GoStrings.Fields "ab cd ef.  gh")
  /\ exists out,
      ExtractSentencesFromText byteTokenizer "ab cd ef.  gh" 5 = Some out
      /\ Forall (fun s => (Sentence.TokenCount s <= 5)%Z) out.
Proof.
  assert (H : Forall (fun w => (CountTokens byteTokenizer w <= 5)%Z)
                     (GoStrings.Fields "ab cd ef.  gh"))
    by (repeat constructor; discriminate).
  split; [exact H |].
  exact (text_path_respects_max_size byteTokenizer "ab cd ef.  gh" 5 H).
Defined.

Lemma length_concat_nonempty {A : Type} (groups : list (list A)) :
  Forall (fun g => g <> []) groups ->
  List.length groups <= List.length (List.concat groups).
Proof.
  induction 1 as [| g groups Hg _ IH]; [cbn; lia |].
  cbn [List.concat List.length]. rewrite length_app.
  destruct g; [congruence | cbn; lia].
Qed.

(** X4. The text path returns at most one sentence per word, and no sentence
    exactly when the text has no word. *)
Theorem text_path_sentence_count :
  forall (tok : Tokenizer) (text : string) (maxSize : Z),
    exists out,
      ExtractSentencesFromText tok text maxSize = Some out
      /\ List.length out <= List.length (GoStrings.Fields text)
      /\ (out = [] <-> GoStrings.Fields text = []).
Proof.
  intros tok text maxSize.
  destruct (text_path_groups tok text maxSize)
    as (groups & Hout & Hcat & _ & Hne & _).
  eexists. split; [exact Hout |]. rewrite length_map, <- Hcat. split.
  - now apply length_concat_nonempty.
  - split.
    + intros H. apply map_eq_nil in H. now subst.
    + intros H. destruct groups as [| g groups]; [reflexivity |].
      inversion Hne; subst. cbn in H. apply app_eq_nil in H. tauto.
Qed.

(** ** What the frame path returns *)

(** X5. The frame path neither loses, repeats nor reorders a word: the words
    of the returned sentences, taken in order, are the words of the frame
    texts. *)
Theorem frame_path_keeps_words :
  forall (tok : Tokenizer) (frames : list Frame.t),
    exists out,
      ExtractSentencesFromFrames tok frames = Some out
      /\ List.concat (map (fun s => GoStrings.Fields (Sentence.Text s)) out)
         = List.concat (map (fun f => GoStrings.Fields (Frame.Text f)) frames).
Proof.
  intros tok frames.
  destruct (ExtractSentencesFromFrames_total tok frames) as [out Hout].
  exists out. split; [exact Hout |].
  unfold ExtractSentencesFromFrames in Hout.
  destruct (len frames =? 0)%Z eqn:Hlen.
  - inversion Hout; subst. destruct frames; [reflexivity | discriminate].
  - apply splitOversized_any in Hout. destruct Hout as (_ & Hcat & _).
    rewrite Hcat. apply provisional_words.
Qed.

Lemma CountTokens_nonneg (tok : Tokenizer) (text : string) :
  (0 <= CountTokens tok text)%Z.
Proof. unfold CountTokens, len. destruct (EncodeSingle tok text); lia. Qed.

(** X6. Every sentence returned by the frame path carries the start time of
    one of the frames, no embedding, and a token count that is the
    tokenizer's count of its own text, never negative. *)
Theorem frame_path_sentence_fields :
  forall (tok : Tokenizer) (frames : list Frame.t),
    exists out,
      ExtractSentencesFromFrames tok frames = Some out
      /\ Forall (fun s =>
                   In (Sentence.StartTime s) (map Frame.StartTime frames)
                   /\ Sentence.Embedding s = []
                   /\ Sentence.TokenCount s = CountTokens tok (Sentence.Text s)
                   /\ (0 <= Sentence.TokenCount s)%Z)
                out.
Proof.
  intros tok frames.
  destruct (ExtractSentencesFromFrames_total tok frames) as [out Hout].
  exists out. split; [exact Hout |].
  unfold ExtractSentencesFromFrames in Hout.
  destruct (len frames =? 0)%Z; [inversion Hout; constructor |].
  apply splitOversized_any in Hout. destruct Hout as (_ & _ & Hall).
  pose proof (provisional_starts tok frames) as Hprov.
  rewrite Forall_forall in *. intros s Hs.
  destruct (Hall s Hs) as (sent & Hin & Hst & Hform & _).
  destruct (Hprov sent Hin) as [Hstart Hsent].
  rewrite Hst. split; [exact Hstart |].
  assert (Hs' : s = newSentence tok (Sentence.Text s) (Sentence.StartTime sent)).
  { destruct Hform as [-> | Hnew]; [| exact Hnew].
    rewrite Hsent at 1. reflexivity. }
  rewrite Hs'. cbn. split; [reflexivity | split; [reflexivity |]].
  apply CountTokens_nonneg.
Qed.

(** X7. On the frame path, when every word of every frame fits 512 tokens on
    its own, every returned sentence that has a word has at most 512
    tokens. *)
Theorem frame_path_ceiling :
  forall (tok : Tokenizer) (frames : list Frame.t),
    Forall (fun f =>
              Forall (fun w => (CountTokens tok w <= 512)%Z)
                     (GoStrings.Fields (Frame.Text f)))
           frames ->
    exists out,
      ExtractSentencesFromFrames tok frames = Some out
      /\ Forall (fun s =>
                   (Sentence.TokenCount s <= 512)%Z
                   \/ GoStrings.Fields (Sentence.Text s) = [])
                out.
Proof.
  intros tok frames Hfit.
  destruct (ExtractSentencesFromFrames_total tok frames) as [out Hout].
  exists out. split; [exact Hout |].
  unfold ExtractSentencesFromFrames in Hout.
  destruct (len frames =? 0)%Z; [inversion Hout; constructor |].
  apply splitOversized_any in Hout. destruct Hout as (_ & Hcat & Hall).
  assert (Hwords : Forall (fun w => (CountTokens tok w <= 512)%Z)
                          (List.concat (map (fun f => GoStrings.Fields (Frame.Text f))
                                            frames))).
  { clear - Hfit. induction Hfit as [| f frames Hf _ IH]; [constructor |].
    cbn. apply Forall_app. auto. }
  rewrite <- provisional_words with (tok := tok) in Hwords.
  rewrite Forall_forall in *. intros s Hs.
  destruct (Hall s Hs) as (sent & Hin & _ & _ & [Hle | [Hnil | [Hw Hcount]]]);
    [now left | now right | left].
  rewrite Hcount. apply Hwords. apply in_concat.
  exists (GoStrings.Fields (Sentence.Text sent)). split; [| exact Hw].
  apply in_map_iff. eauto.
Qed.

Lemma frame_path_ceiling_witness :
  Forall (fun f =>
            Forall (fun w => (CountTokens byteTokenizer w <= 512)%Z)
                   (GoStrings.Fields (Frame.Text f)))
         [timedFrame "Hello" "00:01"; timedFrame "world. " "00:02"]
  /\ exists out,
      ExtractSentencesFromFrames byteTokenizer
        [timedFrame "Hello" "00:01"; timedFrame "world. " "00:02"] = Some out
      /\ Forall (fun s =>
                   (Sentence.TokenCount s <= 512)%Z
                   \/ GoStrings.Fields (Sentence.Text s) = [])
                out.
Proof.
  assert (H : Forall (fun f =>
                        Forall (fun w => (CountTokens byteTokenizer w <= 512)%Z)
                               (GoStrings.Fields (Frame.Text f)))
                     [timedFrame "Hello" "00:01"; timedFrame "world. " "00:02"])
    by (repeat constructor; discriminate).
  split; [exact H |].
  exact (frame_path_ceiling byteTokenizer _ H).
Defined.

(** X8. The frame path returns no sentence exactly when every frame text is
    empty. *)
Theorem frame_path_empty_iff :
  forall (tok : Tokenizer) (frames : list Frame.t),
    exists out,
      ExtractSentencesFromFrames tok frames = Some out
      /\ (out = [] <-> Forall (fun f => Frame.Text f = "") frames).
Proof.
  intros tok frames.
  destruct (ExtractSentencesFromFrames_total tok frames) as [out Hout].
  exists out. split; [exact Hout |].
  unfold ExtractSentencesFromFrames in Hout.
  destruct (len frames =? 0)%Z eqn:Hlen.
  { inversion Hout; subst. destruct frames; [| discriminate].
    split; [constructor | reflexivity]. }
  split.
  - intros ->. apply splitOversized_any in Hout. destruct Hout as (Hne & _).
    apply provisional_nil with (tok := tok).
    destruct (provisionalFromFrames tok frames); [reflexivity |].
    exfalso. apply Hne; [discriminate | reflexivity].
  - intros Hall. unfold provisionalFromFrames in Hout.
    rewrite empty_frames_flush in Hout by (exact Hall || reflexivity).
    cbn in Hout. congruence.
Qed.

(** X9. A single frame with a non-empty text of at most 512 tokens comes back
    as one sentence holding the text as it is, terminators inside the text
    notwithstanding, under the frame's start time. *)
Theorem frame_path_short_frame :
  forall (tok : Tokenizer) (f : Frame.t),
    Frame.Text f <> "" ->
    (CountTokens tok (Frame.Text f) <= 512)%Z ->
    ExtractSentencesFromFrames tok [f]
    = Some [newSentence tok (Frame.Text f) (Frame.StartTime f)].
Proof.
  intros tok f Hne Hfit. unfold ExtractSentencesFromFrames.
  change (len [f] =? 0)%Z with false. cbn iota.
  rewrite (single_frame_provisional tok f Hne).
  cbn [splitOversized]. unfold splitSentence. cbn [newSentence Sentence.TokenCount].
  apply Z.leb_le in Hfit. now rewrite Hfit.
Qed.

Lemma frame_path_short_frame_witness :
  Frame.Text (timedFrame "Hello world. Bye! Again?" "00:05") <> ""
  /\ (CountTokens wordTokenizer "Hello world. Bye! Again?" <= 512)%Z
  /\ ExtractSentencesFromFrames wordTokenizer
       [timedFrame "Hello world. Bye! Again?" "00:05"]
     = Some [newSentence wordTokenizer "Hello world. Bye! Again?" "00:05"].
Proof.
  assert (H1 : Frame.Text (timedFrame "Hello world. Bye! Again?" "00:05") <> "")
    by discriminate.
  assert (H2 : (CountTokens wordTokenizer
                  (Frame.Text (timedFrame "Hello world. Bye! Again?" "00:05"))
                <= 512)%Z) by discriminate.
  split; [exact H1 | split; [exact H2 |]].
  exact (frame_path_short_frame wordTokenizer _ H1 H2).
Defined.

(** ** More on the handler *)

(** X10. A request whose method is not POST is answered with status 405 and
    the message ["Method not allowed"], whatever its body, and no document is
    handed to [processDocument]. *)
Theorem handleEmbed_method_not_allowed :
  forall (cosine : list float32 -> list float32 -> Q)
         (jsonDecode : string -> result BatchEmbedRequest)
         (embeddingModel : EmbeddingModel) (r : Request),
    Method r <> MethodPost ->
    handleEmbed cosine jsonDecode r embeddingModel
    = Some (HttpError 405 "Method not allowed", []).
Proof.
  intros cosine jsonDecode embeddingModel r Hm. unfold handleEmbed.
  apply String.eqb_neq in Hm. now rewrite Hm.
Qed.

Lemma handleEmbed_method_not_allowed_witness :
  Method {| Method := "GET"; Body := "two documents" |} <> MethodPost
  /\ handleEmbed dotProduct sampleDecode
       {| Method := "GET"; Body := "two documents" |} sampleModel
     = Some (HttpError 405 "Method not allowed", []).
Proof.
  assert (H : Method {| Method := "GET"; Body := "two documents" |} <> MethodPost)
    by discriminate.
  split; [exact H |].
  exact (handleEmbed_method_not_allowed dotProduct sampleDecode sampleModel _ H).
Defined.

Lemma processDocument_shape
      (cosine : list float32 -> list float32 -> Q)
      (embeddingModel : EmbeddingModel) (doc : EmbedRequest)
      (resp : DocumentResponse) :
  processDocument cosine embeddingModel doc = Some resp ->
  drID resp = ID doc /\ (drError resp = "" \/ drChunks resp = []).
Proof.
  unfold processDocument. destruct (Text doc =? "")%string.
  - intros H. inversion H; subst. cbn. auto.
  - destruct (processText _ _ _ _) as [[chunks | e] |]; intros H;
      inversion H; subst; cbn; auto.
Qed.

(** X11. A POST request that decodes to a non-empty list of documents is
    answered with one document response per document, carrying the
    documents' ids in request order; a response with an error carries no
    chunks. *)
Theorem handleEmbed_echoes_ids :
  forall (cosine : list float32 -> list float32 -> Q)
         (jsonDecode : string -> result BatchEmbedRequest)
         (embeddingModel : EmbeddingModel) (r : Request)
         (batchReq : BatchEmbedRequest),
    Method r = MethodPost ->
    jsonDecode (Body r) = Ok batchReq ->
    Documents batchReq <> [] ->
    exists resps,
      handleEmbed cosine jsonDecode r embeddingModel
      = Some (HttpJSON {| brDocuments := resps |}, Documents batchReq)
      /\ map drID resps = map ID (Documents batchReq)
      /\ Forall (fun resp => drError resp = "" \/ drChunks resp = []) resps.
Proof.
  intros cosine jsonDecode embeddingModel r batchReq Hpost Hdec Hne.
  destruct (processDocuments_spec cosine embeddingModel (Documents batchReq))
    as (resps & Hdocs & Hall).
  exists resps. split; [| split].
  - unfold handleEmbed. rewrite Hpost, Hdec, Hdocs. cbn.
    destruct (Documents batchReq); [congruence | reflexivity].
  - clear - Hall. induction Hall as [| doc resp docs resps H _ IH]; [reflexivity |].
    cbn. apply processDocument_shape in H. destruct H as [-> _]. now rewrite IH.
  - clear - Hall. induction Hall as [| doc resp docs resps H _ IH]; constructor.
    + apply processDocument_shape in H. tauto.
    + exact IH.
Qed.

Lemma handleEmbed_echoes_ids_witness :
  Method {| Method := "POST"; Body := "two documents" |} = MethodPost
  /\ sampleDecode "two documents" = Ok sampleBatch
  /\ Documents sampleBatch <> []
  /\ exists resps,
      handleEmbed dotProduct sampleDecode
                  {| Method := "POST"; Body := "two documents" |} sampleModel
      = Some (HttpJSON {| brDocuments := resps |}, Documents sampleBatch)
      /\ map drID resps = ["doc1"; "doc2"].
Proof.
  assert (H3 : Documents sampleBatch <> []) by discriminate.
  split; [reflexivity | split; [reflexivity | split; [exact H3 |]]].
  destruct (handleEmbed_echoes_ids dotProduct sampleDecode sampleModel
              {| Method := "POST"; Body := "two documents" |} sampleBatch
              eq_refl eq_refl H3) as (resps & Hresp & Hids & _).
  exists resps. split; [exact Hresp | exact Hids].
Defined.

Lemma single_frame_sentences (tok : Tokenizer) (f : Frame.t) :
  Frame.Text f <> "" ->
  exists s out, ExtractSentencesFromFrames tok [f] = Some (s :: out).
Proof.
  intros Hne. destruct (ExtractSentencesFromFrames_total tok [f]) as [out Hout].
  rewrite Hout. unfold ExtractSentencesFromFrames in Hout.
  change (len [f] =? 0)%Z with false in Hout. cbn iota in Hout.
  apply splitOversized_any in Hout. destruct Hout as (Hout & _).
  rewrite (single_frame_provisional tok f Hne) in Hout.
  destruct out as [| s out]; [| eauto]. exfalso. apply Hout; [discriminate | reflexivity].
Qed.

(** X12. For a document with a non-empty text the sentence embedding pass is
    always reached: when it fails with [e], the document response carries the
    id, no chunks, and the error ["Processing failed: failed to embed
    sentences: "] followed by [e]. *)
Theorem processDocument_embedding_failure :
  forall (cosine : list float32 -> list float32 -> Q)
         (embeddingModel : EmbeddingModel) (doc : EmbedRequest) (e : string),
    Text doc <> "" ->
    (forall sentences, EmbedSentences embeddingModel sentences = Err e) ->
    processDocument cosine embeddingModel doc
    = Some {| drID := ID doc; drChunks := [];
              drError := "Processing failed: failed to embed sentences: " ++ e |}.
Proof.
  intros cosine embeddingModel doc e Htext Hfail.
  unfold processDocument. apply String.eqb_neq in Htext. rewrite Htext.
  unfold processText.
  destruct (single_frame_sentences (Tokenizer_ embeddingModel)
              {| Frame.Text := Text doc; Frame.StartTime := ""; Frame.EndTime := "" |})
    as (s & out & ->).
  { cbn. now apply String.eqb_neq. }
  change (len (s :: out) =? 0)%Z with false. cbn iota.
  rewrite Hfail. reflexivity.
Qed.

Lemma processDocument_embedding_failure_witness :
  Text {| ID := "doc7"; Text := "Hello world."; ChunkingConfig_ := None |} <> ""
  /\ (forall sentences, EmbedSentences failingModel sentences = Err "inference failed")
  /\ processDocument dotProduct failingModel
       {| ID := "doc7"; Text := "Hello world."; ChunkingConfig_ := None |}
     = Some {| drID := "doc7"; drChunks := [];
               drError := "Processing failed: failed to embed sentences: inference failed" |}.
Proof.
  assert (H1 : Text {| ID := "doc7"; Text := "Hello world.";
                       ChunkingConfig_ := None |} <> "") by discriminate.
  assert (H2 : forall sentences,
             EmbedSentences failingModel sentences = Err "inference failed")
    by reflexivity.
  split; [exact H1 | split; [exact H2 |]].
  exact (processDocument_embedding_failure dotProduct failingModel _ _ H1 H2).
Defined.

(** ** Configuration loading *)

(** X13. [LoadEmbeddingConfig] always returns a positive batch budget: the
    value of MAX_BATCH_TOKENS when it is a positive decimal integer, and the
    default of [DefaultEmbeddingConfig] (6000) in every other case. *)
Theorem LoadEmbeddingConfig_positive :
  forall Getenv : string -> string,
    (0 < MaxBatchTokens (LoadEmbeddingConfig Getenv))%Z
    /\ (Atoi (Getenv "MAX_BATCH_TOKENS")
        = Ok (MaxBatchTokens (LoadEmbeddingConfig Getenv))
        \/ LoadEmbeddingConfig Getenv = DefaultEmbeddingConfig)
    /\ (forall val,
           Atoi (Getenv "MAX_BATCH_TOKENS") = Ok val -> (0 < val)%Z ->
           MaxBatchTokens (LoadEmbeddingConfig Getenv) = val).
Proof.
  intros Getenv. unfold LoadEmbeddingConfig, DefaultEmbeddingConfig.
  cbn [MaxBatchTokens].
  destruct (Getenv "MAX_BATCH_TOKENS" =? "")%string eqn:Hempty; cbn [negb].
  - apply String.eqb_eq in Hempty. rewrite Hempty.
    repeat split; [now right | intros val H; discriminate].
  - destruct (Atoi (Getenv "MAX_BATCH_TOKENS")) as [val | e].
    + destruct (0 <? val)%Z eqn:Hpos.
      * apply Z.ltb_lt in Hpos. repeat split; [exact Hpos | now left |].
        intros v Hv _. congruence.
      * apply Z.ltb_ge in Hpos. repeat split; [now right |].
        intros v Hv Hv0. inversion Hv; subst. lia.
    + repeat split; [now right | intros v Hv; discriminate].
Qed.

Lemma LoadEmbeddingConfig_positive_witness :
  Atoi (sampleEnv "MAX_BATCH_TOKENS") = Ok 12000%Z
  /\ (0 < 12000)%Z
  /\ MaxBatchTokens (LoadEmbeddingConfig sampleEnv) = 12000%Z.
Proof.
  split; [reflexivity | split; [reflexivity |]].
  apply (proj2 (proj2 (LoadEmbeddingConfig_positive sampleEnv)) 12000%Z);
    reflexivity.
Defined.

Lemma wrapInt64_small (z : Z) :
  (minInt64 <= z <= maxInt64)%Z -> wrapInt64 z = z.
Proof.
  unfold wrapInt64, minInt64, maxInt64. intros H.
  rewrite Z.mod_small by lia. lia.
Qed.

(** X14. [LoadServerConfig] never returns an empty port, and a timeout
    variable holding a decimal integer between 1 and 9223372036 sets the
    timeout to exactly that many seconds; a variable that is empty, is not a
    decimal integer or is not positive leaves the default of 120 seconds. *)
Theorem LoadServerConfig_timeouts :
  forall Getenv : string -> string,
    Port (LoadServerConfig Getenv) <> ""
    /\ (forall val,
           Atoi (Getenv "READ_TIMEOUT_SECONDS") = Ok val ->
           (0 < val <= 9223372036)%Z ->
           ReadTimeout (LoadServerConfig Getenv) = (val * Second)%Z)
    /\ (forall val,
           Atoi (Getenv "WRITE_TIMEOUT_SECONDS") = Ok val ->
           (0 < val <= 9223372036)%Z ->
           WriteTimeout (LoadServerConfig Getenv) = (val * Second)%Z)
    /\ ((forall val, Atoi (Getenv "READ_TIMEOUT_SECONDS") = Ok val -> (val <= 0)%Z) ->
        ReadTimeout (LoadServerConfig Getenv) = (120 * Second)%Z)
    /\ ((forall val, Atoi (Getenv "WRITE_TIMEOUT_SECONDS") = Ok val -> (val <= 0)%Z) ->
        WriteTimeout (LoadServerConfig Getenv) = (120 * Second)%Z).
Proof.
  intros Getenv. unfold LoadServerConfig. cbn [Port ReadTimeout WriteTimeout].
  assert (Hdef : wrapInt64 (120 * Second) = (120 * Second)%Z) by reflexivity.
  assert (Hatoi_empty : Atoi "" = Err "invalid syntax") by reflexivity.
  split; [| split; [| split; [| split]]].
  - destruct (Getenv "PORT" =? "")%string eqn:H; cbn [negb]; [discriminate |].
    now apply String.eqb_neq.
  - intros val Hval Hrange.
    destruct (Getenv "READ_TIMEOUT_SECONDS" =? "")%string eqn:H; cbn [negb].
    + apply String.eqb_eq in H. rewrite H, Hatoi_empty in Hval. discriminate.
    + rewrite Hval. destruct (0 <? val)%Z eqn:Hpos; [| apply Z.ltb_ge in Hpos; lia].
      apply wrapInt64_small. unfold minInt64, maxInt64, Second. lia.
  - intros val Hval Hrange.
    destruct (Getenv "WRITE_TIMEOUT_SECONDS" =? "")%string eqn:H; cbn [negb].
    + apply String.eqb_eq in H. rewrite H, Hatoi_empty in Hval. discriminate.
    + rewrite Hval. destruct (0 <? val)%Z eqn:Hpos; [| apply Z.ltb_ge in Hpos; lia].
      apply wrapInt64_small. unfold minInt64, maxInt64, Second. lia.
  - intros Hbad.
    destruct (Getenv "READ_TIMEOUT_SECONDS" =? "")%string; cbn [negb]; [exact Hdef |].
    destruct (Atoi (Getenv "READ_TIMEOUT_SECONDS")) as [val | e]; [| exact Hdef].
    specialize (Hbad val eq_refl).
    destruct (0 <? val)%Z eqn:Hpos; [apply Z.ltb_lt in Hpos; lia | exact Hdef].
  - intros Hbad.
    destruct (Getenv "WRITE_TIMEOUT_SECONDS" =? "")%string; cbn [negb]; [exact Hdef |].
    destruct (Atoi (Getenv "WRITE_TIMEOUT_SECONDS")) as [val | e]; [| exact Hdef].
    specialize (Hbad val eq_refl).
    destruct (0 <? val)%Z eqn:Hpos; [apply Z.ltb_lt in Hpos; lia | exact Hdef].
Qed.

Lemma LoadServerConfig_timeouts_witness :
  Atoi (sampleEnv "READ_TIMEOUT_SECONDS") = Ok 30%Z
  /\ (0 < 30 <= 9223372036)%Z
  /\ ReadTimeout (LoadServerConfig sampleEnv) = (30 * Second)%Z
  /\ (forall val, Atoi ((fun _ => "soon") "WRITE_TIMEOUT_SECONDS") = Ok val -> (val <= 0)%Z)
  /\ WriteTimeout (LoadServerConfig (fun _ => "soon")) = (120 * Second)%Z.
Proof.
  assert (H2 : (0 < 30 <= 9223372036)%Z) by lia.
  assert (H4 : forall val,
             Atoi ((fun _ : string => "soon") "WRITE_TIMEOUT_SECONDS") = Ok val ->
             (val <= 0)%Z) by (intros val H; discriminate).
  split; [reflexivity | split; [exact H2 | split; [| split; [exact H4 |]]]].
  - exact (proj1 (proj2 (LoadServerConfig_timeouts sampleEnv)) 30%Z eq_refl H2).
  - exact (proj2 (proj2 (proj2 (proj2 (LoadServerConfig_timeouts (fun _ => "soon")))))
             H4).
Defined.

(** X15. A timeout variable above 9223372036 seconds overflows the
    nanosecond count: up to 18446744073 seconds [LoadServerConfig] returns a
    negative read timeout. *)
Theorem LoadServerConfig_timeout_overflow :
  forall (Getenv : string -> string) (val : Z),
    Atoi (Getenv "READ_TIMEOUT_SECONDS") = Ok val ->
    (9223372036 < val <= 18446744073)%Z ->
    ReadTimeout (LoadServerConfig Getenv) = (val * Second - 2 ^ 64)%Z
    /\ (ReadTimeout (LoadServerConfig Getenv) < 0)%Z.
Proof.
  intros Getenv val Hval Hrange. unfold LoadServerConfig. cbn [ReadTimeout].
  destruct (Getenv "READ_TIMEOUT_SECONDS" =? "")%string eqn:H; cbn [negb].
  { apply String.eqb_eq in H. rewrite H in Hval. discriminate. }
  rewrite Hval. destruct (0 <? val)%Z eqn:Hpos; [| apply Z.ltb_ge in Hpos; lia].
  assert (Hw : wrapInt64 (val * Second) = (val * Second - 2 ^ 64)%Z).
  { unfold wrapInt64, Second.
    replace ((val * 1000000000 + 2 ^ 63) mod 2 ^ 64)%Z
      with (val * 1000000000 + 2 ^ 63 - 2 ^ 64)%Z; [lia |].
    apply Z.mod_unique with (q := 1%Z); lia. }
  rewrite Hw. unfold Second. lia.
Qed.

Lemma LoadServerConfig_timeout_overflow_witness :
  Atoi ((fun _ => "9223372037") "READ_TIMEOUT_SECONDS") = Ok 9223372037%Z
  /\ (9223372036 < 9223372037 <= 18446744073)%Z
  /\ (ReadTimeout (LoadServerConfig (fun _ => "9223372037")) < 0)%Z.
Proof.
  assert (H2 : (9223372036 < 9223372037 <= 18446744073)%Z) by lia.
  split; [reflexivity | split; [exact H2 |]].
  exact (proj2 (LoadServerConfig_timeout_overflow (fun _ => "9223372037")
                  9223372037%Z eq_refl H2)).
Defined.

(** ** The split pass is greedy *)

Section Greedy.

Variable tok : Tokenizer.
Variable maxTokens : Z.

Lemma addWords_stop (rest : list string) :
  forall (cur : string) (wc : nat) (t : string) (wc' : nat),
    addWords tok maxTokens rest cur wc = (t, wc') ->
    match skipn (wc' - wc) rest with
    | [] => True
    | w :: _ => (maxTokens < CountTokens tok (t ++ " " ++ w))%Z
    end.
Proof.
  induction rest as [| w rest IH]; intros cur wc t wc' H; cbn [addWords] in H.
  - inversion H; subst. now rewrite skipn_nil.
  - destruct (maxTokens <? CountTokens tok (cur ++ " " ++ w))%Z eqn:Hlt.
    + inversion H; subst. rewrite Nat.sub_diag. cbn [skipn].
      now apply Z.ltb_lt.
    + pose proof (addWords_count tok maxTokens rest (cur ++ " " ++ w) (S wc)) as Hc.
      rewrite H in Hc. cbn [snd] in Hc.
      apply IH in H. replace (wc' - wc) with (S (wc' - S wc)) by lia.
      exact H.
Qed.

Lemma splitWords_greedy (startTime : string) :
  forall (fuel : nat) (words : list string) (subs : list Sentence.t),
    splitWords tok fuel maxTokens startTime words = Some subs ->
    exists groups,
      subs = map (wordSentence tok startTime) groups
      /\ List.concat groups = words
      /\ Forall (fun g => g <> []) groups
      /\ greedyGroups tok maxTokens groups.
Proof.
  induction fuel as [| fuel IH]; intros words subs H.
  - destruct words; cbn in H; [| discriminate]. inversion H; subst.
    exists []. repeat split. constructor.
  - destruct words as [| w0 rest]; cbn [splitWords] in H.
    { inversion H; subst. exists []. repeat split. constructor. }
    destruct (addWords tok maxTokens rest w0 1) as [chunkText wordCount] eqn:Hadd.
    pose proof (addWords_stop rest w0 1 chunkText wordCount Hadd) as Hstop.
    apply addWords_spec in Hadd. destruct Hadd as (k & -> & Hk & -> & _).
    replace (1 + k - 1) with k in Hstop by lia.
    change (skipn (1 + k) (w0 :: rest)) with (skipn k rest) in H.
    destruct (splitWords tok fuel maxTokens startTime (skipn k rest))
      as [subs' |] eqn:Hrec; [| discriminate].
    inversion H; subst subs; clear H.
    destruct (IH _ _ Hrec) as (groups & -> & Hcat & Hne & Hgreedy).
    exists ((w0 :: firstn k rest) :: groups). split; [| split; [| split]].
    + cbn [map]. unfold wordSentence at 1. now rewrite joinOnto_concat.
    + cbn [List.concat]. rewrite Hcat. cbn [app]. now rewrite firstn_skipn.
    + constructor; [discriminate | exact Hne].
    + cbn [greedyGroups]. split; [| exact Hgreedy].
      destruct groups as [| [| w g] groups]; [exact I | exact I |].
      cbn [List.concat app] in Hcat. rewrite <- Hcat in Hstop.
      now rewrite <- joinOnto_concat.
Qed.

End Greedy.

(** X16. The split of a sentence over the ceiling is greedy: its
    sub-sentences hold the words of the sentence in consecutive non-empty
    groups joined by single spaces, and after each group but the last the
    first word of the next group would have taken the group over the
    ceiling. *)
Theorem split_pass_greedy :
  forall (tok : Tokenizer) (maxTokens : Z) (sent : Sentence.t),
    (maxTokens < Sentence.TokenCount sent)%Z ->
    exists groups,
      splitSentence tok maxTokens sent
      = Some (match GoStrings.Fields (Sentence.Text sent) with
              | [] => [sent]
              | _ => map (wordSentence tok (Sentence.StartTime sent)) groups
              end)
      /\ List.concat groups = GoStrings.Fields (Sentence.Text sent)
      /\ Forall (fun g => g <> []) groups
      /\ greedyGroups tok maxTokens groups.
Proof.
  intros tok maxTokens sent Hover. unfold splitSentence.
  destruct (Sentence.TokenCount sent <=? maxTokens)%Z eqn:Hle;
    [apply Z.leb_le in Hle; lia |].
  destruct (GoStrings.Fields (Sentence.Text sent)) as [| w words] eqn:Hwords.
  - exists []. cbn. repeat split. constructor.
  - change (len (w :: words) =? 0)%Z with false. cbn iota.
    destruct (splitWords_total tok maxTokens (Sentence.StartTime sent)
                (List.length (w :: words)) (w :: words) (le_n _)) as [subs Hsubs].
    destruct (splitWords_greedy tok maxTokens _ _ _ _ Hsubs)
      as (groups & -> & Hcat & Hne & Hgreedy).
    exists groups. rewrite Hsubs. auto.
Qed.

Lemma split_pass_greedy_witness :
  (5 < Sentence.TokenCount (newSentence byteTokenizer "aa bb cc." "00:01"))%Z
  /\ exists groups,
      splitSentence byteTokenizer 5 (newSentence byteTokenizer "aa bb cc." "00:01")
      = Some (map (wordSentence byteTokenizer "00:01") groups)
      /\ List.concat groups = ["aa"; "bb"; "cc."]
      /\ greedyGroups byteTokenizer 5 groups.
Proof.
  assert (H : (5 < Sentence.TokenCount
                     (newSentence byteTokenizer "aa bb cc." "00:01"))%Z)
    by reflexivity.
  split; [exact H |].
  destruct (split_pass_greedy byteTokenizer 5 _ H) as (groups & Hs & Hc & _ & Hg).
  exists groups. split; [exact Hs | split; [exact Hc | exact Hg]].
Defined.

(** ** Digit-only strings *)

Lemma digit_test (c : ascii) :
  (nat_of_ascii c <? 48)%nat || (57 <? nat_of_ascii c)%nat = negb (isDigit c).
Proof.
  unfold isDigit.
  destruct (Nat.ltb_spec (nat_of_ascii c) 48), (Nat.ltb_spec 57 (nat_of_ascii c)),
    (Nat.leb_spec 48 (nat_of_ascii c)), (Nat.leb_spec (nat_of_ascii c) 57);
    cbn; try reflexivity; lia.
Qed.

Lemma digitsOnly_Forall (s : string) :
  digitsOnly s = true
  <-> Forall (fun c => isDigit c = true) (list_ascii_of_string s).
Proof.
  induction s as [| c s IH]; cbn [digitsOnly list_ascii_of_string].
  - split; [constructor | reflexivity].
  - rewrite digit_test. destruct (isDigit c) eqn:Hc; cbn [negb].
    + rewrite IH. split; [intros H; now constructor | intros H; now inversion H].
    + split; [discriminate |]. intros H. inversion H; subst. congruence.
Qed.

Lemma spaceWidth_digit (c : ascii) (x : string) :
  isDigit c = true -> GoStrings.spaceWidth (String c x) = 0.
Proof.
  intros Hc. apply spaceWidth_zero. intros enc Henc.
  assert (Hall : forallb (fun e => match e with
                                   | String a _ => negb (isDigit a)
                                   | EmptyString => true
                                   end) GoStrings.whiteSpace = true)
    by reflexivity.
  rewrite forallb_forall in Hall. specialize (Hall enc Henc).
  destruct enc as [| a enc]; [| cbn [GoStrings.HasPrefix]].
  - assert (Hlen : forallb (fun e => (0 <? String.length e)%nat)
                           GoStrings.whiteSpace = true) by reflexivity.
    rewrite forallb_forall in Hlen. specialize (Hlen "" Henc). discriminate.
  - destruct (Ascii.eqb a c) eqn:Hac; [| reflexivity].
    apply Ascii.eqb_eq in Hac. subst. rewrite Hc in Hall. discriminate.
Qed.

Lemma digits_cleanBefore (s : string) :
  Forall (fun c => isDigit c = true) (list_ascii_of_string s) ->
  cleanBefore s "" = true.
Proof.
  induction s as [| c s IH]; intros H; [reflexivity |].
  cbn [list_ascii_of_string] in H. inversion H as [| ? ? Hc Hrest]; subst.
  cbn [cleanBefore]. rewrite (IH Hrest), andb_true_r.
  cbn [append]. now rewrite spaceWidth_digit.
Qed.

Lemma parseDigits_digits (s : string) :
  Forall (fun c => isDigit c = true) (list_ascii_of_string s) ->
  forall acc : Z,
    (0 <= acc)%Z ->
    exists n,
      parseDigits s acc = Some n
      /\ (acc * 10 ^ Z.of_nat (String.length s) <= n
          < (acc + 1) * 10 ^ Z.of_nat (String.length s))%Z.
Proof.
  induction s as [| c s IH]; intros H acc Hacc.
  - exists acc. cbn. split; [reflexivity | lia].
  - cbn [list_ascii_of_string] in H. inversion H as [| ? ? Hc Hrest]; subst.
    cbn [parseDigits String.length]. rewrite Hc.
    assert (Hd : (0 <= Z.of_nat (nat_of_ascii c - 48) <= 9)%Z).
    { unfold isDigit in Hc. apply andb_prop in Hc. destruct Hc as [H1 H2].
      apply Nat.leb_le in H1. apply Nat.leb_le in H2. lia. }
    destruct (IH Hrest (acc * 10 + Z.of_nat (nat_of_ascii c - 48))%Z) as (n & Hn & Hb);
      [lia |].
    exists n. split; [exact Hn |].
    rewrite Nat2Z.inj_succ, Z.pow_succ_r by lia.
    assert (Hp : (0 < 10 ^ Z.of_nat (String.length s))%Z)
      by (apply Z.pow_pos_nonneg; lia).
    nia.
Qed.

(** X17. [isDigitOnly] holds exactly of the non-empty strings made of the
    bytes ['0'] to ['9']. Such a string is one word for [strings.Fields],
    and [strconv.Atoi] reads it as a non-negative number when it has fewer
    than 19 digits. *)
Theorem isDigitOnly_spec :
  forall s : string,
    (isDigitOnly s = true
     <-> s <> "" /\ Forall (fun c => isDigit c = true) (list_ascii_of_string s))
    /\ (isDigitOnly s = true ->
        GoStrings.Fields s = [s]
        /\ (String.length s < 19 -> exists n, Atoi s = Ok n /\ (0 <= n)%Z)).
Proof.
  intros s.
  assert (Hiff : isDigitOnly s = true
                 <-> s <> "" /\ Forall (fun c => isDigit c = true)
                                       (list_ascii_of_string s)).
  { unfold isDigitOnly. rewrite <- digitsOnly_Forall.
    destruct (digitsOnly s); destruct s; cbn; split; intros H;
      try discriminate; try tauto; try (destruct H; congruence).
    split; [discriminate | reflexivity]. }
  split; [exact Hiff |].
  intros H. apply Hiff in H. destruct H as [Hne Hdig]. split.
  - apply Fields_word. split; [exact Hne | now apply digits_cleanBefore].
  - intros Hlen. destruct (parseDigits_digits s Hdig 0%Z) as (n & Hn & Hb); [lia |].
    exists n. split; [| lia].
    destruct s as [| c s]; [congruence |].
    cbn [list_ascii_of_string] in Hdig. inversion Hdig as [| ? ? Hc _]; subst.
    unfold Atoi.
    assert (Hminus : Ascii.eqb c "-" = false).
    { destruct (Ascii.eqb c "-") eqn:E; [| reflexivity].
      apply Ascii.eqb_eq in E. subst. discriminate. }
    assert (Hplus : Ascii.eqb c "+" = false).
    { destruct (Ascii.eqb c "+") eqn:E; [| reflexivity].
      apply Ascii.eqb_eq in E. subst. discriminate. }
    rewrite Hminus, Hplus. cbn [orb]. rewrite Hn.
    assert (Hpow : (10 ^ Z.of_nat (String.length (String c s)) <= 10 ^ 18)%Z)
      by (apply Z.pow_le_mono_r; lia).
    assert (Hrange : (minInt64 <=? n)%Z && (n <=? maxInt64)%Z = true).
    { apply andb_true_intro. unfold minInt64, maxInt64.
      split; apply Z.leb_le; lia. }
    now rewrite Hrange.
Qed.

Lemma isDigitOnly_spec_witness :
  isDigitOnly "0042" = true
  /\ GoStrings.Fields "0042" = ["0042"]
  /\ String.length "0042" < 19
  /\ exists n, Atoi "0042" = Ok n /\ (0 <= n)%Z.
Proof.
  assert (H1 : isDigitOnly "0042" = true) by reflexivity.
  assert (H3 : String.length "0042" < 19) by (cbn; lia).
  destruct (proj2 (isDigitOnly_spec "0042") H1) as [Hf Ha].
  split; [exact H1 | split; [exact Hf | split; [exact H3 | exact (Ha H3)]]].
Defined.

(** ** White space after a terminator *)

Lemma revString_app (a b : string) :
  GoStrings.revString (a ++ b) = GoStrings.revString b ++ GoStrings.revString a.
Proof.
  induction a as [| c a IH]; cbn [append GoStrings.revString].
  - now rewrite append_nil_r.
  - now rewrite IH, append_assoc.
Qed.

Lemma dropSpaces_space (w x : string) :
  In w GoStrings.whiteSpace ->
  GoStrings.dropSpaces GoStrings.spaceWidth (w ++ x) 0
  = GoStrings.dropSpaces GoStrings.spaceWidth x 0.
Proof.
  intros Hw. cbv [GoStrings.whiteSpace map In] in Hw.
  repeat (destruct Hw as [<- | Hw]; [reflexivity |]).
  destruct Hw.
Qed.

Lemma dropSpaces_space_back (w x : string) :
  In w GoStrings.whiteSpace ->
  GoStrings.dropSpaces GoStrings.spaceWidthBack (GoStrings.revString w ++ x) 0
  = GoStrings.dropSpaces GoStrings.spaceWidthBack x 0.
Proof.
  intros Hw. cbv [GoStrings.whiteSpace map In] in Hw.
  repeat (destruct Hw as [<- | Hw]; [reflexivity |]).
  destruct Hw.
Qed.

Lemma spaceWidth_app_whiteSpace (x w s : string) :
  x <> "" -> In w GoStrings.whiteSpace ->
  GoStrings.spaceWidth (x ++ w ++ s) = GoStrings.spaceWidth x.
Proof.
  intros Hx Hw.
  assert (Hall : forallb (fun w' =>
                            match w' with
                            | EmptyString => false
                            | String c _ =>
                                forallb (fun e => avoids c (tailOf e))
                                        GoStrings.whiteSpace
                            end) GoStrings.whiteSpace = true) by reflexivity.
  rewrite forallb_forall in Hall. specialize (Hall w Hw).
  destruct w as [| c w]; [discriminate |]. rewrite forallb_forall in Hall.
  cbn [append]. unfold GoStrings.spaceWidth, GoStrings.spaceWidthIn.
  rewrite (find_ext_in (fun e => GoStrings.HasPrefix (x ++ String c (w ++ s)) e)
                       (fun e => GoStrings.HasPrefix x e)); [reflexivity |].
  intros enc Henc. apply HasPrefix_app_tail; [exact Hx | now apply Hall].
Qed.

Lemma dropSpaces_app_whiteSpace (w : string) (t : string) :
  In w GoStrings.whiteSpace ->
  forall skip : nat,
    skip <= String.length t ->
    GoStrings.dropSpaces GoStrings.spaceWidth (t ++ w) skip
    = match GoStrings.dropSpaces GoStrings.spaceWidth t skip with
      | EmptyString => EmptyString
      | u => u ++ w
      end.
Proof.
  intros Hw. induction t as [| c t IH]; intros skip Hskip.
  - cbn in Hskip. assert (skip = 0) by lia. subst skip. cbn [append].
    rewrite <- (append_nil_r w). now rewrite (dropSpaces_space w "" Hw).
  - cbn [append GoStrings.dropSpaces]. destruct skip as [| k].
    + change (String c (t ++ w)) with (String c t ++ w).
      rewrite <- (append_nil_r w) at 1.
      rewrite spaceWidth_app_whiteSpace by (discriminate || exact Hw).
      destruct (GoStrings.spaceWidth (String c t)) as [| k] eqn:Hwd.
      * reflexivity.
      * apply spaceWidth_bound in Hwd. cbn in Hwd. apply IH. lia.
    + apply IH. cbn in Hskip. lia.
Qed.

Lemma TrimSpace_app_whiteSpace (t w : string) :
  In w GoStrings.whiteSpace ->
  GoStrings.TrimSpace (t ++ w) = GoStrings.TrimSpace t.
Proof.
  intros Hw. unfold GoStrings.TrimSpace.
  rewrite (dropSpaces_app_whiteSpace w t Hw 0) by lia.
  destruct (GoStrings.dropSpaces GoStrings.spaceWidth t 0) as [| c u]; [reflexivity |].
  rewrite revString_app. now rewrite dropSpaces_space_back.
Qed.

(** X18. White space after a text does not change whether the text closes a
    sentence: [endsSentence] gives the same answer for a frame text or word
    and for the same text followed by white-space runes. *)
Theorem endsSentence_trailing_white_space :
  forall t ws : string,
    WhiteSpaceOnly ws -> endsSentence (t ++ ws) = endsSentence t.
Proof.
  intros t ws Hws. revert t.
  induction Hws as [| w s Hw _ IH]; intros t.
  - now rewrite append_nil_r.
  - rewrite <- append_assoc, IH. unfold endsSentence.
    now rewrite TrimSpace_app_whiteSpace.
Qed.

Lemma endsSentence_trailing_white_space_witness :
  WhiteSpaceOnly (" " ++ GoStrings.bytes [226; 128; 168])
  /\ endsSentence ("done!" ++ " " ++ GoStrings.bytes [226; 128; 168]) = true.
Proof.
  assert (H : WhiteSpaceOnly (" " ++ GoStrings.bytes [226; 128; 168])).
  { apply (wso_cons " "); [cbv; tauto |].
    rewrite <- (append_nil_r (GoStrings.bytes [226; 128; 168])).
    apply wso_cons; [cbv; tauto | constructor]. }
  split; [exact H |].
  rewrite (endsSentence_trailing_white_space "done!" _ H). reflexivity.
Defined.

(** ** The text path sees words only *)

(** X19. The text path depends on the words of the text only: it returns the
    same sentences for a text and for the words of the text joined by single
    spaces, whatever the white space between the words was. *)
Theorem text_path_white_space_blind :
  forall (tok : Tokenizer) (text : string) (maxSize : Z),
    ExtractSentencesFromText tok (String.concat " " (GoStrings.Fields text)) maxSize
    = ExtractSentencesFromText tok text maxSize.
Proof.
  intros tok text maxSize.
  assert (Hfields : GoStrings.Fields (String.concat " " (GoStrings.Fields text))
                    = GoStrings.Fields text)
    by apply Fields_concat_words, Fields_wordLike.
  assert (Hprov : provisionalFromText tok (String.concat " " (GoStrings.Fields text))
                  = provisionalFromText tok text)
    by now rewrite !provisionalFromText_groups, Hfields.
  unfold ExtractSentencesFromText. rewrite Hprov.
  destruct (String.concat " " (GoStrings.Fields text) =? "")%string eqn:H1;
    destruct (text =? "")%string eqn:H2; try reflexivity.
  - apply String.eqb_eq in H1. rewrite H1 in Hfields. cbn in Hfields.
    rewrite provisionalFromText_groups, <- Hfields. reflexivity.
  - apply String.eqb_eq in H2. subst. discriminate.
Qed.
